(** * Quad-edge topology operators (package quadedge, file topo.go)
      and the bounding-box fold (package util)

    A shallow embedding of the Go code.  Pointers to edges are optional
    arena indices ([None] is Go's [nil]); the mesh is the arena of edge
    records; every operator is a computation in a small state-and-panic
    monad, so that a nil dereference of the Go code is the value [None] of
    the embedding.  Coordinates are IEEE-754 binary64 numbers, taken from
    the specification of floating-point numbers of the standard library. *)

From Stdlib Require Import ZArith Lia Bool List PeanoNat Zify ZifyNat.
From Stdlib Require Import Floats.SpecFloat.
From stdpp Require Import base option list.

(** ** float64 *)

Module F64.

Definition prec : Z := 53.
Definition emax : Z := 1024.

Definition float64 : Type := spec_float.

Definition of_Z (z : Z) : float64 := binary_normalize prec emax z 0 false.

Definition add (x y : float64) : float64 := SFadd prec emax x y.
Definition sub (x y : float64) : float64 := SFsub prec emax x y.
Definition mul (x y : float64) : float64 := SFmul prec emax x y.
Definition abs (x : float64) : float64 := SFabs x.

(** Go's [<], [>] and [==] on float64: false as soon as a NaN is
    involved, and the two zeros are equal. *)
Definition lt (x y : float64) : bool := SFltb x y.
Definition gt (x y : float64) : bool := lt y x.
Definition eq (x y : float64) : bool := SFeqb x y.
Definition le (x y : float64) : bool := SFleb x y.

Definition is_nan (x : float64) : bool :=
  match x with S754_nan => true | _ => false end.

End F64.

Abbreviation float64 := F64.float64.

(** ** The arena of edges *)

(** [geom.Point] is [[2]float64]. *)
Definition Point : Type := float64 * float64.

(** A [*Edge]: [None] is nil, [Some i] points to slot [i] of the arena. *)
Definition EdgeRef : Type := option nat.

(** Modelled from the spec: the struct [Edge] (its declaration is not in
    topo.go).  A directed edge stores its [next] reference and its origin
    point (a [*geom.Point], unset when nil).  The quad-edge group and the
    position [num] of the edge in it are the quotient and the remainder of
    the slot index by four: the four edges of a group are allocated
    together. *)
Record Edge : Type := mkEdge { next : EdgeRef; v : option Point }.

Abbreviation Mesh := (list Edge).

(** ** Computations: the mesh is threaded, a panic aborts *)

Definition M (A : Type) : Type := Mesh -> option (A * Mesh).

Definition ret {A} (x : A) : M A := fun m => Some (x, m).

Definition bind {A B} (c : M A) (k : A -> M B) : M B :=
  fun m => match c m with
           | Some (x, m') => k x m'
           | None => None
           end.

Definition panic {A} : M A := fun _ => None.

Notation "'let*' x ':=' c 'in' k" := (bind c (fun x => k))
  (at level 10, x name, c at level 100, k at level 200).
Notation "c ';;' k" := (bind c (fun _ => k))
  (at level 100, k at level 200, right associativity, only parsing).

(** Reading and writing the fields of the edge a pointer refers to.  A nil
    pointer, or one that refers to no slot, panics. *)
Definition load (e : EdgeRef) : M Edge :=
  fun m => match e with
           | None => None
           | Some i => match m !! i with
                       | Some ed => Some (ed, m)
                       | None => None
                       end
           end.

Definition store (e : EdgeRef) (f : Edge -> Edge) : M unit :=
  fun m => match e with
           | None => None
           | Some i => match m !! i with
                       | Some ed => Some (tt, <[i := f ed]> m)
                       | None => None
                       end
           end.

Definition set_next (e t : EdgeRef) : M unit :=
  store e (fun ed => mkEdge t (v ed)).

Definition set_v (e : EdgeRef) (p : option Point) : M unit :=
  store e (fun ed => mkEdge (next ed) p).

(** ** Accessors of an edge *)

Definition rot (i : nat) : nat := 4 * (i / 4) + (i + 1) mod 4.
Definition sym (i : nat) : nat := 4 * (i / 4) + (i + 2) mod 4.
Definition invrot (i : nat) : nat := 4 * (i / 4) + (i + 3) mod 4.

(** Modelled from the spec: the methods [Rot], [Sym], [InvRot], [ONext],
    [OPrev], [LNext], [Orig], [Dest] and [EndPoints] of [*Edge], which
    topo.go calls and does not define.  The rotations move inside the group
    of four ((index + 1) mod 4, (index + 2) mod 4); they go through the
    receiver, so a nil receiver panics.  [ONext] reads the field [next].
    [OPrev] is the clockwise-previous edge about the origin and [LNext] the
    next edge about the left face, in the edge algebra of Guibas and Stolfi
    that topo.go refers to: e Rot Onext Rot and e Rot^-1 Onext Rot.  The
    destination is the origin of the symmetric edge; [EndPoints] sets the
    origin of the edge and of its symmetric edge. *)
Definition Rot (e : EdgeRef) : M EdgeRef :=
  match e with None => panic | Some i => ret (Some (rot i)) end.

Definition Sym (e : EdgeRef) : M EdgeRef :=
  match e with None => panic | Some i => ret (Some (sym i)) end.

Definition InvRot (e : EdgeRef) : M EdgeRef :=
  match e with None => panic | Some i => ret (Some (invrot i)) end.

Definition ONext (e : EdgeRef) : M EdgeRef :=
  let* ed := load e in ret (next ed).

Definition OPrev (e : EdgeRef) : M EdgeRef :=
  let* r := Rot e in let* n := ONext r in Rot n.

Definition LNext (e : EdgeRef) : M EdgeRef :=
  let* r := InvRot e in let* n := ONext r in Rot n.

Definition Orig (e : EdgeRef) : M (option Point) :=
  let* ed := load e in ret (v ed).

Definition Dest (e : EdgeRef) : M (option Point) :=
  let* s := Sym e in Orig s.

Definition EndPoints (e : EdgeRef) (org dest : option Point) : M unit :=
  set_v e org ;;
  let* s := Sym e in
  set_v s dest.

Definition is_nil (e : EdgeRef) : bool :=
  match e with None => true | Some _ => false end.

(** ** Splice (topo.go, lines 22-38) *)

Definition Splice (a b : EdgeRef) : M unit :=
  if is_nil a || is_nil b then ret tt else
  let* alpha := (let* n := ONext a in Rot n) in
  let* beta := (let* n := ONext b in Rot n) in
  let* t1 := ONext b in
  let* t2 := ONext a in
  let* t3 := ONext beta in
  let* t4 := ONext alpha in
  set_next a t1 ;;
  set_next b t2 ;;
  set_next alpha t3 ;;
  set_next beta t4.

(** ** Delete (topo.go, lines 136-147) *)

Definition Delete (e : EdgeRef) : M unit :=
  if is_nil e then ret tt else
  let* s := Sym e in
  (let* p := OPrev e in Splice e p) ;;
  let* q := OPrev s in
  Splice s q.

(** ** Swap (topo.go, lines 125-133) *)

Definition Swap (e : EdgeRef) : M unit :=
  let* a := OPrev e in
  let* b := (let* s := Sym e in OPrev s) in
  Splice e a ;;
  (let* s := Sym e in Splice s b) ;;
  (let* l := LNext a in Splice e l) ;;
  (let* s := Sym e in let* l := LNext b in Splice s l) ;;
  let* org := Dest a in
  let* dst := Dest b in
  EndPoints e org dst.

(** ** Pure views of the arena *)

Definition nxt (m : Mesh) (i : nat) : EdgeRef :=
  match m !! i with Some ed => next ed | None => None end.

Definition vtx (m : Mesh) (i : nat) : option Point :=
  match m !! i with Some ed => v ed | None => None end.

(** The effect of [e.next = t] on the arena. *)
Definition put_next (i : nat) (t : EdgeRef) (m : Mesh) : Mesh :=
  match m !! i with
  | Some ed => <[i := mkEdge t (v ed)]> m
  | None => m
  end.

(** The effect of [e.v = p] on the arena. *)
Definition put_v (i : nat) (p : option Point) (m : Mesh) : Mesh :=
  match m !! i with
  | Some ed => <[i := mkEdge (next ed) p]> m
  | None => m
  end.


(** ** Arithmetic of the group of four *)

Ltac quad :=
  unfold rot, sym, invrot in *; zify; Z.div_mod_to_equations; lia.

Lemma rot_rot i : rot (rot i) = sym i.
Proof. quad. Qed.

Lemma rot_invrot i : rot (invrot i) = i.
Proof. quad. Qed.

Lemma invrot_rot i : invrot (rot i) = i.
Proof. quad. Qed.

Lemma sym_sym i : sym (sym i) = i.
Proof. quad. Qed.

Lemma rot_sym i : rot (sym i) = invrot i.
Proof. quad. Qed.

Lemma sym_rot i : sym (rot i) = invrot i.
Proof. quad. Qed.

Lemma rot_parity i : rot i mod 2 <> i mod 2.
Proof. quad. Qed.

Lemma invrot_parity i : invrot i mod 2 <> i mod 2.
Proof. quad. Qed.

Lemma sym_parity i : sym i mod 2 = i mod 2.
Proof. quad. Qed.

Lemma rot_lt i n : n mod 4 = 0 -> i < n -> rot i < n.
Proof. intros; quad. Qed.

Lemma sym_lt i n : n mod 4 = 0 -> i < n -> sym i < n.
Proof. intros; quad. Qed.

Lemma invrot_lt i n : n mod 4 = 0 -> i < n -> invrot i < n.
Proof. intros; quad. Qed.

Lemma rot_inj i j : rot i = rot j -> i = j.
Proof. intros; quad. Qed.

Lemma sym_ne i : sym i <> i.
Proof. quad. Qed.

(** ** Running the primitive actions *)

Lemma lookup_lt_is (m : Mesh) i : i < length m -> exists ed, m !! i = Some ed.
Proof. intros H. destruct (lookup_lt_is_Some_2 m i H) as [ed E]. eauto. Qed.

Lemma ONext_run (m : Mesh) i :
  i < length m -> ONext (Some i) m = Some (nxt m i, m).
Proof.
  intros H. destruct (lookup_lt_is m i H) as [ed E].
  unfold ONext, bind, load, ret, nxt. now rewrite E.
Qed.

Lemma Orig_run (m : Mesh) i :
  i < length m -> Orig (Some i) m = Some (vtx m i, m).
Proof.
  intros H. destruct (lookup_lt_is m i H) as [ed E].
  unfold Orig, bind, load, ret, vtx. now rewrite E.
Qed.

Lemma set_next_run (m : Mesh) i t :
  i < length m -> set_next (Some i) t m = Some (tt, put_next i t m).
Proof.
  intros H. destruct (lookup_lt_is m i H) as [ed E].
  unfold set_next, store, put_next. now rewrite E.
Qed.

Lemma set_v_run (m : Mesh) i p :
  i < length m -> set_v (Some i) p m = Some (tt, put_v i p m).
Proof.
  intros H. destruct (lookup_lt_is m i H) as [ed E].
  unfold set_v, store, put_v. now rewrite E.
Qed.

Lemma length_put_next i t (m : Mesh) : length (put_next i t m) = length m.
Proof. unfold put_next. destruct (m !! i); [apply length_insert | reflexivity]. Qed.

Lemma length_put_v i p (m : Mesh) : length (put_v i p m) = length m.
Proof. unfold put_v. destruct (m !! i); [apply length_insert | reflexivity]. Qed.

Lemma nxt_put_next i t (m : Mesh) x :
  i < length m ->
  nxt (put_next i t m) x = if decide (x = i) then t else nxt m x.
Proof.
  intros H. destruct (lookup_lt_is m i H) as [ed E].
  unfold nxt, put_next. rewrite E.
  destruct (decide (x = i)) as [->|N].
  - now rewrite list_lookup_insert_eq.
  - now rewrite list_lookup_insert_ne by congruence.
Qed.

Lemma vtx_put_next i t (m : Mesh) x : vtx (put_next i t m) x = vtx m x.
Proof.
  unfold vtx, put_next. destruct (m !! i) as [ed|] eqn:E; [|reflexivity].
  destruct (decide (x = i)) as [->|N].
  - rewrite list_lookup_insert_eq by (eapply lookup_lt_Some; eauto).
    now rewrite E.
  - now rewrite list_lookup_insert_ne by congruence.
Qed.

Lemma nxt_put_v i p (m : Mesh) x : nxt (put_v i p m) x = nxt m x.
Proof.
  unfold nxt, put_v. destruct (m !! i) as [ed|] eqn:E; [|reflexivity].
  destruct (decide (x = i)) as [->|N].
  - rewrite list_lookup_insert_eq by (eapply lookup_lt_Some; eauto).
    now rewrite E.
  - now rewrite list_lookup_insert_ne by congruence.
Qed.

Lemma vtx_put_v i p (m : Mesh) x :
  i < length m ->
  vtx (put_v i p m) x = if decide (x = i) then p else vtx m x.
Proof.
  intros H. destruct (lookup_lt_is m i H) as [ed E].
  unfold vtx, put_v. rewrite E.
  destruct (decide (x = i)) as [->|N].
  - now rewrite list_lookup_insert_eq.
  - now rewrite list_lookup_insert_ne by congruence.
Qed.

(** The arena after the four writes of [Splice a b], with [na] and [nb] the
    successors of [a] and [b] read beforehand. *)
Definition spliced (a b na nb : nat) (m : Mesh) : Mesh :=
  put_next (rot nb) (nxt m (rot na))
    (put_next (rot na) (nxt m (rot nb))
       (put_next b (Some na)
          (put_next a (Some nb) m))).

Lemma Splice_run (m : Mesh) a b na nb :
  a < length m -> b < length m ->
  nxt m a = Some na -> nxt m b = Some nb ->
  rot na < length m -> rot nb < length m ->
  Splice (Some a) (Some b) m = Some (tt, spliced a b na nb m).
Proof.
  intros Ha Hb Ea Eb Hra Hrb.
  unfold Splice, spliced; cbn [is_nil orb].
  unfold bind at 1. unfold bind at 1. rewrite (ONext_run m a Ha), Ea.
  cbn [Rot ret].
  unfold bind at 1. unfold bind at 1. rewrite (ONext_run m b Hb), Eb.
  cbn [Rot ret].
  unfold bind at 1. rewrite (ONext_run m b Hb), Eb.
  unfold bind at 1. rewrite (ONext_run m a Ha), Ea.
  unfold bind at 1. rewrite (ONext_run m _ Hrb).
  unfold bind at 1. rewrite (ONext_run m _ Hra).
  unfold bind at 1. rewrite (set_next_run m a _ Ha).
  unfold bind at 1. rewrite set_next_run by (now rewrite length_put_next).
  unfold bind at 1. rewrite set_next_run by (now rewrite !length_put_next).
  rewrite set_next_run by (now rewrite !length_put_next).
  reflexivity.
Qed.

(** ** Well-formed quad-edge structures *)

(** The successor as a total function (a nil [next] is sent to the edge
    itself; the well-formed structures have none). *)
Definition nx (m : Mesh) (i : nat) : nat :=
  match nxt m i with Some j => j | None => i end.

Fixpoint steps (f : nat -> nat) (k : nat) (i : nat) : nat :=
  match k with
  | 0 => i
  | S k' => steps f k' (f i)
  end.

(** The edge algebra on [n] slots with successor [f]: whole groups of four,
    successors inside the arena, a primal edge followed by a primal edge and
    a dual one by a dual one, and e Onext Rot Onext Rot = e. *)
Record qperm (n : nat) (f : nat -> nat) : Prop := mk_qperm {
  qp_groups : n mod 4 = 0;
  qp_range : forall i, i < n -> f i < n;
  qp_parity : forall i, i < n -> f i mod 2 = i mod 2;
  qp_dual : forall i, i < n -> f (rot (f i)) = invrot i
}.

Definition wf (m : Mesh) : Prop :=
  (forall i, i < length m -> is_Some (nxt m i)) /\ qperm (length m) (nx m).

Definition wf_atb (m : Mesh) (i : nat) : bool :=
  match nxt m i with
  | Some j =>
      (j <? length m) && (j mod 2 =? i mod 2) &&
      match nxt m (rot j) with
      | Some k => k =? invrot i
      | None => false
      end
  | None => false
  end.

Definition wfb (m : Mesh) : bool :=
  (length m mod 4 =? 0) && forallb (wf_atb m) (seq 0 (length m)).

(** The four-way exchange of [Splice]: the later writes win. *)
Definition swap4 (a b c d x : nat) : nat :=
  if decide (x = d) then c
  else if decide (x = c) then d
  else if decide (x = b) then a
  else if decide (x = a) then b
  else x.

Definition splice_fn (f : nat -> nat) (a b : nat) (x : nat) : nat :=
  f (swap4 a b (rot (f a)) (rot (f b)) x).

Lemma wfb_wf m : wfb m = true -> wf m.
Proof.
  unfold wfb. rewrite andb_true_iff, Nat.eqb_eq, forallb_forall.
  intros [Hg Hall].
  assert (A : forall i, i < length m -> wf_atb m i = true).
  { intros i Hi. apply Hall, in_seq. lia. }
  assert (B : forall i, i < length m ->
            nxt m i = Some (nx m i) /\ nx m i < length m /\
            nx m i mod 2 = i mod 2 /\ nxt m (rot (nx m i)) = Some (invrot i)).
  { intros i Hi. specialize (A i Hi). unfold wf_atb in A. unfold nx.
    destruct (nxt m i) as [j|]; [|discriminate].
    rewrite !andb_true_iff, Nat.ltb_lt, Nat.eqb_eq in A.
    destruct A as [[A1 A2] A3].
    destruct (nxt m (rot j)) as [k|]; [|discriminate].
    apply Nat.eqb_eq in A3. subst k. auto. }
  split.
  - intros i Hi. destruct (B i Hi) as [E _]. rewrite E. eauto.
  - constructor; try (intros i Hi; destruct (B i Hi) as (E1 & E2 & E3 & E4)); auto.
    unfold nx at 1. now rewrite E4.
Qed.

Lemma wf_nxt m i : wf m -> i < length m -> nxt m i = Some (nx m i).
Proof.
  intros [H _] Hi. destruct (H i Hi) as [j E]. unfold nx. now rewrite E.
Qed.

Lemma wf_groups m : wf m -> length m mod 4 = 0.
Proof. intros [_ H]. apply H. Qed.

Lemma wf_range m i : wf m -> i < length m -> nx m i < length m.
Proof. intros [_ H]. apply H. Qed.

Section QuadPerm.
Variables (n : nat) (f : nat -> nat).
Hypothesis Hq : qperm n f.

Lemma qp_inj i j : i < n -> j < n -> f i = f j -> i = j.
Proof.
  intros Hi Hj E.
  pose proof (qp_dual _ _ Hq i Hi) as Di.
  pose proof (qp_dual _ _ Hq j Hj) as Dj.
  rewrite E in Di. rewrite Di in Dj. quad.
Qed.

Lemma qp_rot_lt i : i < n -> rot i < n.
Proof. apply rot_lt, Hq. Qed.

(** [Rot . Onext] is an involution. *)
Lemma qp_flip i : i < n -> rot (f (rot (f i))) = i.
Proof. intros Hi. rewrite (qp_dual _ _ Hq i Hi). apply rot_invrot. Qed.

(** [OPrev] is the inverse of [ONext]. *)
Lemma qp_next_prev i : i < n -> f (rot (f (rot i))) = i.
Proof.
  intros Hi. rewrite (qp_dual _ _ Hq (rot i) (qp_rot_lt i Hi)).
  apply invrot_rot.
Qed.

Lemma qp_prev_lt i : i < n -> rot (f (rot i)) < n.
Proof. intros Hi. apply qp_rot_lt, (qp_range _ _ Hq), qp_rot_lt, Hi. Qed.

Lemma qp_prev_parity i : i < n -> rot (f (rot i)) mod 2 = i mod 2.
Proof.
  intros Hi. pose proof (qp_parity _ _ Hq (rot i) (qp_rot_lt i Hi)).
  pose proof (rot_parity i). pose proof (rot_parity (f (rot i))). lia.
Qed.

Lemma steps_lt k i : i < n -> steps f k i < n.
Proof.
  revert i. induction k as [|k IH]; intros i Hi; cbn; auto.
  apply IH, (qp_range _ _ Hq), Hi.
Qed.

Lemma steps_parity k i : i < n -> steps f k i mod 2 = i mod 2.
Proof.
  revert i. induction k as [|k IH]; intros i Hi; cbn [steps]; auto.
  rewrite IH by (apply (qp_range _ _ Hq), Hi). apply (qp_parity _ _ Hq), Hi.
Qed.

Lemma steps_inj k i j : i < n -> j < n -> steps f k i = steps f k j -> i = j.
Proof.
  revert i j. induction k as [|k IH]; intros i j Hi Hj E; cbn in E; auto.
  apply qp_inj; auto. apply IH; auto; apply (qp_range _ _ Hq); auto.
Qed.
End QuadPerm.

Lemma steps_add f j k i : steps f (j + k) i = steps f k (steps f j i).
Proof. revert i. induction j as [|j IH]; intros i; cbn; auto. Qed.

Lemma steps_S_r f k i : steps f (S k) i = f (steps f k i).
Proof. replace (S k) with (k + 1) by lia. now rewrite steps_add. Qed.

Lemma dup_or_NoDup (l : list nat) :
  NoDup l \/ exists i j x, i < j /\ l !! i = Some x /\ l !! j = Some x.
Proof.
  induction l as [|x l IH].
  - left. constructor.
  - destruct (decide (x ∈ l)) as [Hin|Hnin].
    + right. apply list_elem_of_lookup in Hin as [j Hj].
      exists 0, (S j), x. split; [lia|]. split; [reflexivity | exact Hj].
    + destruct IH as [ND | (i & j & y & Hij & Ei & Ej)].
      * left. now constructor.
      * right. exists (S i), (S j), y. split; [lia|]. split; [exact Ei | exact Ej].
Qed.

(** In a well-formed structure every successor chain returns to its start,
    in at most as many steps as there are slots. *)
Lemma qperm_closed n f i :
  qperm n f -> i < n -> exists k, 0 < k <= n /\ steps f k i = i.
Proof.
  intros Hq Hi.
  set (l := (fun k => steps f k i) <$> seq 0 (S n)).
  destruct (dup_or_NoDup l) as [ND | (k1 & k2 & x & Hlt & E1 & E2)].
  - exfalso.
    assert (Hsub : l ⊆+ seq 0 n).
    { apply NoDup_submseteq; [exact ND|].
      intros y Hy. unfold l in Hy. apply list_elem_of_fmap in Hy as (k & -> & _).
      apply elem_of_seq. pose proof (steps_lt n f Hq k i Hi). lia. }
    apply submseteq_length in Hsub.
    unfold l in Hsub. rewrite length_fmap, !length_seq in Hsub. lia.
  - unfold l in E1, E2. rewrite list_lookup_fmap in E1, E2.
    destruct (seq 0 (S n) !! k1) as [k1'|] eqn:S1; [|discriminate].
    destruct (seq 0 (S n) !! k2) as [k2'|] eqn:S2; [|discriminate].
    apply lookup_seq in S1 as [-> L1]. apply lookup_seq in S2 as [-> L2].
    cbn in E1, E2. injection E1 as E1. injection E2 as E2.
    exists (k2 - k1). split; [lia|].
    apply (steps_inj n f Hq k1); auto.
    + apply steps_lt; auto.
    + rewrite <- steps_add. replace (k2 - k1 + k1) with k2 by lia. congruence.
Qed.

(** ** The exchange of successors preserves the edge algebra *)

Lemma swap4_invol a b c d x :
  a <> c -> a <> d -> b <> c -> b <> d -> (a = b <-> c = d) ->
  swap4 a b c d (swap4 a b c d x) = x.
Proof.
  intros ? ? ? ? [? ?]. unfold swap4.
  repeat (case_decide; subst; try congruence); tauto.
Qed.

Lemma swap4_flip (p : nat -> nat) a b y :
  p (p y) = y -> p (p a) = a -> p (p b) = b ->
  a <> p a -> a <> p b -> b <> p a -> b <> p b ->
  swap4 a b (p a) (p b) (p y) = p (swap4 a b (p a) (p b) y).
Proof.
  intros Hy Ha Hb ? ? ? ?. unfold swap4.
  repeat (case_decide; subst; try congruence).
Qed.

Lemma swap4_id a c x : swap4 a a c c x = x.
Proof. unfold swap4. repeat (case_decide; subst; try congruence). Qed.

Lemma swap4_other a b c d x :
  x <> a -> x <> b -> x <> c -> x <> d -> swap4 a b c d x = x.
Proof. intros. unfold swap4. repeat (case_decide; subst; try congruence). Qed.

Lemma swap4_lt n a b c d x :
  a < n -> b < n -> c < n -> d < n -> x < n -> swap4 a b c d x < n.
Proof. intros. unfold swap4. repeat case_decide; lia. Qed.

Lemma swap4_parity a b c d x :
  a mod 2 = b mod 2 -> c mod 2 = d mod 2 ->
  swap4 a b c d x mod 2 = x mod 2.
Proof. intros. unfold swap4. repeat case_decide; subst; lia. Qed.

Section SpliceFn.
Variables (n : nat) (f : nat -> nat) (a b : nat).
Hypothesis Hq : qperm n f.
Hypothesis Ha : a < n.
Hypothesis Hb : b < n.
Hypothesis Hab : a mod 2 = b mod 2.

Let alpha := rot (f a).
Let beta := rot (f b).

Lemma alpha_lt : alpha < n.
Proof. apply (qp_rot_lt n f Hq), (qp_range _ _ Hq), Ha. Qed.

Lemma beta_lt : beta < n.
Proof. apply (qp_rot_lt n f Hq), (qp_range _ _ Hq), Hb. Qed.

Lemma alpha_parity : alpha mod 2 <> a mod 2.
Proof.
  pose proof (qp_parity _ _ Hq a Ha). pose proof (rot_parity (f a)).
  unfold alpha. lia.
Qed.

Lemma beta_parity : beta mod 2 <> b mod 2.
Proof.
  pose proof (qp_parity _ _ Hq b Hb). pose proof (rot_parity (f b)).
  unfold beta. lia.
Qed.

Lemma alpha_beta_eq : a = b <-> alpha = beta.
Proof.
  split; [now intros ->|]. unfold alpha, beta. intros E.
  apply rot_inj in E. now apply (qp_inj n f Hq).
Qed.

Lemma splice_swap_invol x :
  swap4 a b alpha beta (swap4 a b alpha beta x) = x.
Proof.
  pose proof alpha_parity. pose proof beta_parity.
  apply swap4_invol; try congruence. apply alpha_beta_eq.
Qed.

Lemma splice_swap_lt x : x < n -> swap4 a b alpha beta x < n.
Proof. apply swap4_lt; auto using alpha_lt, beta_lt. Qed.

Lemma splice_fn_qperm : qperm n (splice_fn f a b).
Proof.
  pose proof alpha_parity as Pa. pose proof beta_parity as Pb.
  constructor.
  - apply Hq.
  - intros i Hi. apply (qp_range _ _ Hq), splice_swap_lt, Hi.
  - intros i Hi. unfold splice_fn. fold alpha beta.
    rewrite (qp_parity _ _ Hq) by (apply splice_swap_lt, Hi).
    apply swap4_parity; auto.
    assert (Nat.modulo alpha 2 < 2) by (apply Nat.mod_upper_bound; lia).
    assert (Nat.modulo beta 2 < 2) by (apply Nat.mod_upper_bound; lia).
    assert (Nat.modulo a 2 < 2) by (apply Nat.mod_upper_bound; lia).
    lia.
  - intros i Hi. unfold splice_fn. fold alpha beta.
    set (y := swap4 a b alpha beta i).
    assert (Hy : y < n) by (apply splice_swap_lt, Hi).
    pose (p := fun x => rot (f x)).
    assert (F : forall x, x < n -> p (p x) = x) by (intros; apply (qp_flip n f Hq); auto).
    change (rot (f y)) with (p y). change alpha with (p a). change beta with (p b).
    rewrite swap4_flip; auto;
      try (change (p a) with alpha; change (p b) with beta; congruence).
    change (p a) with alpha; change (p b) with beta. unfold y. rewrite splice_swap_invol.
    unfold p. apply (qp_dual _ _ Hq), Hi.
Qed.

Lemma splice_fn_invol x : splice_fn (splice_fn f a b) a b x = f x.
Proof.
  pose proof alpha_parity as Pa. pose proof beta_parity as Pb.
  unfold splice_fn. fold alpha beta.
  pose proof alpha_beta_eq as [E1 E2].
  assert (Ea : swap4 a b alpha beta a = b).
  { unfold swap4. repeat case_decide; congruence. }
  assert (Eb : swap4 a b alpha beta b = a).
  { unfold swap4. repeat case_decide; congruence. }
  rewrite Ea, Eb. fold alpha beta.
  assert (E : swap4 a b alpha beta (swap4 a b beta alpha x) = x).
  { unfold swap4. repeat case_decide; try congruence.
    all: try (rewrite E2 in * by congruence; congruence).
    all: try (assert (alpha = beta) by (apply E1; congruence); congruence). }
  now rewrite E.
Qed.
End SpliceFn.

Lemma qperm_ext n f g : (forall x, g x = f x) -> qperm n f -> qperm n g.
Proof.
  intros E [H1 H2 H3 H4]. constructor; auto.
  - intros i Hi. rewrite E. auto.
  - intros i Hi. rewrite E. auto.
  - intros i Hi. rewrite !E. auto.
Qed.

Lemma steps_ext f g k i : (forall x, g x = f x) -> steps g k i = steps f k i.
Proof.
  intros E. revert i. induction k as [|k IH]; intros i; cbn; auto.
  now rewrite E, IH.
Qed.

(** ** Splice on a well-formed structure *)

Lemma length_spliced a b na nb (m : Mesh) : length (spliced a b na nb m) = length m.
Proof. unfold spliced. now rewrite !length_put_next. Qed.

Lemma vtx_spliced a b na nb (m : Mesh) x : vtx (spliced a b na nb m) x = vtx m x.
Proof. unfold spliced. now rewrite !vtx_put_next. Qed.

Lemma nxt_spliced_raw a b na nb (m : Mesh) x :
  a < length m -> b < length m -> rot na < length m -> rot nb < length m ->
  nxt (spliced a b na nb m) x =
    if decide (x = rot nb) then nxt m (rot na)
    else if decide (x = rot na) then nxt m (rot nb)
    else if decide (x = b) then Some na
    else if decide (x = a) then Some nb
    else nxt m x.
Proof.
  intros Ha Hb Hra Hrb. unfold spliced.
  rewrite nxt_put_next by (now rewrite !length_put_next).
  rewrite nxt_put_next by (now rewrite !length_put_next).
  rewrite nxt_put_next by (now rewrite !length_put_next).
  rewrite nxt_put_next by assumption.
  reflexivity.
Qed.

Lemma nxt_spliced (m : Mesh) a b x :
  wf m -> a < length m -> b < length m ->
  nxt (spliced a b (nx m a) (nx m b) m) x =
    nxt m (swap4 a b (rot (nx m a)) (rot (nx m b)) x).
Proof.
  intros W Ha Hb.
  pose proof (wf_groups m W) as G.
  rewrite nxt_spliced_raw; auto using rot_lt, wf_range.
  unfold swap4. repeat case_decide; auto using wf_nxt, eq_sym.
Qed.

Lemma Splice_wf (m : Mesh) a b :
  wf m -> a < length m -> b < length m -> a mod 2 = b mod 2 ->
  let m' := spliced a b (nx m a) (nx m b) m in
  Splice (Some a) (Some b) m = Some (tt, m') /\
  length m' = length m /\ wf m' /\
  (forall x, vtx m' x = vtx m x) /\
  (forall x, nx m' x = splice_fn (nx m) a b x).
Proof.
  intros W Ha Hb Hab m'.
  pose proof (wf_groups m W) as G.
  destruct W as [WS WQ].
  assert (W : wf m) by (split; auto).
  assert (L : length m' = length m) by apply length_spliced.
  assert (N : forall x, nx m' x = splice_fn (nx m) a b x).
  { intros x. unfold nx at 1, m'. rewrite nxt_spliced by auto.
    unfold splice_fn.
    set (y := swap4 a b (rot (nx m a)) (rot (nx m b)) x).
    destruct (decide (x < length m)) as [Hx|Hx].
    - assert (Hy : y < length m) by (apply (splice_swap_lt _ _ _ _ WQ Ha Hb), Hx).
      now rewrite (wf_nxt m y W Hy).
    - assert (y = x) as ->.
      { pose proof (alpha_lt _ _ _ WQ Ha). pose proof (beta_lt _ _ _ WQ Hb).
        apply swap4_other; lia. }
      unfold nx, nxt. rewrite (lookup_ge_None_2 m x) by lia. reflexivity. }
  split; [|split; [|split; [|split]]]; auto.
  - apply Splice_run; auto using wf_nxt, rot_lt, wf_range.
  - split.
    + intros i Hi. rewrite L in Hi. unfold m'. rewrite nxt_spliced by auto.
      rewrite wf_nxt; eauto. apply (splice_swap_lt _ _ _ _ WQ Ha Hb), Hi.
    + rewrite L. apply (qperm_ext _ _ _ N).
      apply splice_fn_qperm; auto.
  - intros x. apply vtx_spliced.
Qed.

(** ** Origin rings and their sizes *)

(** Walks the [next] chain from [cur] until it comes back to [start]; the
    result is the number of steps taken, [k] counting those already made. *)
Fixpoint ring_search (m : Mesh) (fuel start cur k : nat) : option nat :=
  match fuel with
  | 0 => None
  | S fuel' =>
      match nxt m cur with
      | None => None
      | Some j => if decide (j = start) then Some (S k)
                  else ring_search m fuel' start j (S k)
      end
  end.

(** The number of edges of the origin ring of [e]. *)
Definition ring_size (m : Mesh) (e : nat) : option nat :=
  ring_search m (length m) e e 0.

(** Whether [b] is in the origin ring of [a]. *)
Definition same_ring (m : Mesh) (a b : nat) : bool :=
  existsb (fun k => steps (nx m) k a =? b) (seq 0 (length m)).

(** [k] is the least positive number of steps that bring [i] back to [i]. *)
Definition period (f : nat -> nat) (i k : nat) : Prop :=
  0 < k /\ steps f k i = i /\ forall d, 0 < d < k -> steps f d i <> i.

Lemma steps_mul_period f i k t : steps f k i = i -> steps f (t * k) i = i.
Proof.
  intros E. induction t as [|t IH]; cbn; auto.
  now rewrite steps_add, E.
Qed.

Lemma steps_mod_period f i k d : 0 < k -> steps f k i = i -> steps f d i = steps f (d mod k) i.
Proof.
  intros Hk E. rewrite (Nat.div_mod_eq d k) at 1.
  rewrite steps_add, (Nat.mul_comm k), steps_mul_period; auto.
Qed.

Lemma period_le n f i k : qperm n f -> i < n -> period f i k -> k <= n.
Proof.
  intros Hq Hi (Hk & _ & Hmin).
  destruct (qperm_closed n f i Hq Hi) as (k0 & Hk0 & E0).
  destruct (decide (k <= k0)) as [|N]; [lia|].
  exfalso. apply (Hmin k0); [lia | exact E0].
Qed.

Lemma period_unique f i k1 k2 : period f i k1 -> period f i k2 -> k1 = k2.
Proof.
  intros (P1 & E1 & M1) (P2 & E2 & M2).
  destruct (Nat.lt_trichotomy k1 k2) as [L|[E|L]]; auto; exfalso.
  - apply (M2 k1); auto.
  - apply (M1 k2); auto.
Qed.

Section RingSearch.
Variable m : Mesh.
Hypothesis W : wf m.
Let n := length m.
Let f := nx m.

Lemma ring_search_complete start d :
  forall fuel cur k, cur < n -> 0 < d <= fuel ->
    steps f d cur = start ->
    (forall d', 0 < d' < d -> steps f d' cur <> start) ->
    ring_search m fuel start cur k = Some (k + d).
Proof.
  induction d as [|d IH]; intros fuel cur k Hc Hd E Hmin; [lia|].
  destruct fuel as [|fuel]; [lia|]. cbn [ring_search].
  rewrite (wf_nxt m cur W Hc). fold f.
  destruct (decide (f cur = start)) as [Y|N].
  - destruct d as [|d]; [f_equal; lia|].
    exfalso. apply (Hmin 1); [lia | exact Y].
  - destruct d as [|d]; [cbn in E; contradiction|].
    rewrite (IH fuel (f cur) (S k)).
    + f_equal. lia.
    + apply wf_range; auto.
    + lia.
    + exact E.
    + intros d' Hd'. apply (Hmin (S d')). lia.
Qed.

Lemma ring_search_sound start :
  forall fuel cur k r, cur < n ->
    ring_search m fuel start cur k = Some r ->
    exists d, 0 < d <= fuel /\ r = k + d /\ steps f d cur = start /\
              forall d', 0 < d' < d -> steps f d' cur <> start.
Proof.
  induction fuel as [|fuel IH]; intros cur k r Hc E; [discriminate|].
  cbn [ring_search] in E. rewrite (wf_nxt m cur W Hc) in E. fold f in E.
  destruct (decide (f cur = start)) as [Y|N].
  - injection E as <-. exists 1. repeat split; try lia. exact Y.
  - apply IH in E as (d & Hd & -> & Ed & Hmin); [|apply wf_range; auto].
    exists (S d). repeat split; try lia; auto.
    intros d' Hd'. destruct d' as [|d']; [lia|].
    destruct d' as [|d']; [exact N|]. apply (Hmin (S d')). lia.
Qed.

Lemma ring_size_period i k : i < n -> ring_size m i = Some k <-> period f i k.
Proof.
  intros Hi. unfold ring_size. split.
  - intros E. apply ring_search_sound in E as (d & Hd & -> & Ed & Hmin); auto.
    repeat split; auto; lia.
  - intros P. pose proof (period_le n f i k (proj2 W) Hi P) as L.
    destruct P as (Hk & E & Hmin).
    now apply (ring_search_complete i k (length m) i 0).
Qed.

Lemma same_ring_true a b : same_ring m a b = true -> exists k, steps f k a = b.
Proof.
  unfold same_ring. rewrite existsb_exists. intros (k & _ & E).
  apply Nat.eqb_eq in E. eauto.
Qed.

Lemma same_ring_false a b : a < n -> same_ring m a b = false -> forall k, steps f k a <> b.
Proof.
  intros Ha E k Ek.
  destruct (qperm_closed n f a (proj2 W) Ha) as (k0 & Hk0 & E0).
  assert (X : same_ring m a b = true); [|congruence].
  unfold same_ring. apply existsb_exists. exists (k mod k0). split.
  - apply in_seq. pose proof (Nat.mod_upper_bound k k0). fold n. lia.
  - apply Nat.eqb_eq. fold f. rewrite <- steps_mod_period; auto. lia.
Qed.

Lemma same_ring_intro a b k : a < n -> steps f k a = b -> same_ring m a b = true.
Proof.
  intros Ha E. destruct (same_ring m a b) eqn:X; auto.
  exfalso. exact (same_ring_false a b Ha X k E).
Qed.
End RingSearch.

(** ** Splice joins two distinct rings *)

Section Merge.
Variables (n : nat) (f : nat -> nat) (a b p q : nat).
Hypothesis Hq : qperm n f.
Hypothesis Ha : a < n.
Hypothesis Hb : b < n.
Hypothesis Hab : a mod 2 = b mod 2.
Hypothesis Pa : period f a p.
Hypothesis Pb : period f b q.
Hypothesis Hdist : forall k, steps f k a <> b.

Let g := splice_fn f a b.

Lemma dist_sym k : steps f k b <> a.
Proof.
  intros E. destruct Pb as (Hq0 & Eq & _).
  apply (Hdist (k * q - k)).
  rewrite <- E, <- steps_add.
  replace (k + (k * q - k)) with (k * q) by nia.
  now apply steps_mul_period.
Qed.

Lemma merge_at_a : g a = f b.
Proof.
  pose proof (alpha_parity n f a b Hq Ha Hb Hab).
  pose proof (beta_parity n f a b Hq Ha Hb Hab).
  unfold g, splice_fn, swap4. repeat case_decide; congruence.
Qed.

Lemma merge_at_b : g b = f a.
Proof.
  pose proof (alpha_parity n f a b Hq Ha Hb Hab).
  pose proof (beta_parity n f a b Hq Ha Hb Hab).
  unfold g, splice_fn, swap4. repeat case_decide; congruence.
Qed.

Lemma merge_elsewhere x :
  x <> a -> x <> b -> x mod 2 = a mod 2 -> g x = f x.
Proof.
  intros Na Nb Px.
  pose proof (alpha_parity n f a b Hq Ha Hb Hab).
  pose proof (beta_parity n f a b Hq Ha Hb Hab).
  unfold g, splice_fn, swap4. repeat case_decide; congruence.
Qed.

Lemma merge_run_b j : 0 < j <= q -> steps g j a = steps f j b.
Proof.
  induction j as [|j IH]; intros Hj; [lia|].
  destruct j as [|j]; [cbn; apply merge_at_a|].
  rewrite (steps_S_r g (S j)), IH by lia. rewrite (steps_S_r f (S j)).
  apply merge_elsewhere.
  - apply dist_sym.
  - apply Pb. lia.
  - rewrite (steps_parity n f Hq) by auto. congruence.
Qed.

Lemma merge_run_a j : 0 < j <= p -> steps g j b = steps f j a.
Proof.
  induction j as [|j IH]; intros Hj; [lia|].
  destruct j as [|j]; [cbn; apply merge_at_b|].
  rewrite (steps_S_r g (S j)), IH by lia. rewrite (steps_S_r f (S j)).
  apply merge_elsewhere.
  - apply Pa. lia.
  - apply Hdist.
  - now rewrite (steps_parity n f Hq) by auto.
Qed.

Lemma merge_reach : steps g q a = b.
Proof. rewrite merge_run_b; [apply Pb | destruct Pb; lia]. Qed.

Lemma merge_reach_back : steps g p b = a.
Proof. rewrite merge_run_a; [apply Pa | destruct Pa; lia]. Qed.

Lemma merge_period_a : period g a (p + q).
Proof.
  destruct Pa as (Hp & Ep & Mp). destruct Pb as (Hq0 & Eq & Mq).
  split; [lia|]. split.
  - rewrite Nat.add_comm, steps_add, merge_reach. apply merge_reach_back.
  - intros d Hd. destruct (decide (d <= q)) as [L|L].
    + rewrite merge_run_b by lia. apply dist_sym.
    + replace d with (q + (d - q)) by lia.
      rewrite steps_add, merge_reach, merge_run_a by lia. apply Mp. lia.
Qed.

Lemma merge_period_b : period g b (p + q).
Proof.
  destruct Pa as (Hp & Ep & Mp). destruct Pb as (Hq0 & Eq & Mq).
  split; [lia|]. split.
  - rewrite steps_add, merge_reach_back. apply merge_reach.
  - intros d Hd. destruct (decide (d <= p)) as [L|L].
    + rewrite merge_run_a by lia. apply Hdist.
    + replace d with (p + (d - p)) by lia.
      rewrite steps_add, merge_reach_back, merge_run_b by lia. apply Mq. lia.
Qed.
End Merge.

Lemma period_ext f g i k : (forall x, g x = f x) -> period f i k -> period g i k.
Proof.
  intros E (H1 & H2 & H3). split; [auto|]. split.
  - now rewrite (steps_ext f g).
  - intros d Hd. rewrite (steps_ext f g) by auto. now apply H3.
Qed.

Lemma mesh_ext (m1 m2 : Mesh) :
  length m1 = length m2 ->
  (forall x, nxt m1 x = nxt m2 x) -> (forall x, vtx m1 x = vtx m2 x) ->
  m1 = m2.
Proof.
  intros L N V. apply list_eq. intros i.
  specialize (N i). specialize (V i). unfold nxt, vtx in N, V.
  destruct (m1 !! i) as [[n1 v1]|] eqn:E1, (m2 !! i) as [[n2 v2]|] eqn:E2;
    cbn in *; try congruence.
  - apply lookup_lt_Some in E1. apply lookup_ge_None in E2. lia.
  - apply lookup_lt_Some in E2. apply lookup_ge_None in E1. lia.
Qed.

Lemma nxt_out (m : Mesh) x : length m <= x -> nxt m x = None.
Proof. intros H. unfold nxt. now rewrite (lookup_ge_None_2 m x) by lia. Qed.

(** Splicing the same two edges twice restores the arena. *)
Lemma Splice_twice (m : Mesh) a b :
  wf m -> a < length m -> b < length m -> a mod 2 = b mod 2 ->
  let m' := spliced a b (nx m a) (nx m b) m in
  spliced a b (nx m' a) (nx m' b) m' = m.
Proof.
  intros W Ha Hb Hab m'.
  destruct (Splice_wf m a b W Ha Hb Hab) as (_ & L & W' & V & N). fold m' in L, W', V, N.
  assert (Ha' : a < length m') by lia. assert (Hb' : b < length m') by lia.
  destruct (Splice_wf m' a b W' Ha' Hb' Hab) as (_ & L2 & W2 & V2 & N2).
  cbv zeta in L2, W2, V2, N2.
  set (m2 := spliced a b (nx m' a) (nx m' b) m') in *.
  apply mesh_ext.
  - lia.
  - intros x. destruct (decide (x < length m)) as [Hx|Hx].
    + rewrite (wf_nxt m2 x W2) by lia. rewrite (wf_nxt m x W) by lia.
      f_equal. rewrite N2.
      transitivity (splice_fn (splice_fn (nx m) a b) a b x).
      * unfold splice_fn at 1 3. now rewrite !N.
      * apply (splice_fn_invol (length m) (nx m) a b (proj2 W) Ha Hb Hab x).
    + rewrite !nxt_out by lia. reflexivity.
  - intros x. now rewrite V2, V.
Qed.

(** ** Running the accessors and the editors *)

Lemma bind_run {A B} (c : M A) (k : A -> M B) (m m' : Mesh) x :
  c m = Some (x, m') -> bind c k m = k x m'.
Proof. intros E. unfold bind. now rewrite E. Qed.

Definition oprev (m : Mesh) (i : nat) : nat := rot (nx m (rot i)).
Definition lnext (m : Mesh) (i : nat) : nat := rot (nx m (invrot i)).

(** The arena after [Splice a b]. *)
Definition splice_m (a b : nat) (m : Mesh) : Mesh :=
  spliced a b (nx m a) (nx m b) m.

(** The arena after [Delete e]. *)
Definition delete_m (e : nat) (m : Mesh) : Mesh :=
  let m1 := splice_m e (oprev m e) m in
  splice_m (sym e) (oprev m1 (sym e)) m1.

(** The arena after each of the four splices of [Swap e]. *)
Definition swap_m1 (e : nat) (m : Mesh) : Mesh :=
  splice_m e (oprev m e) m.

Definition swap_m2 (e : nat) (m : Mesh) : Mesh :=
  splice_m (sym e) (oprev m (sym e)) (swap_m1 e m).

Definition swap_m3 (e : nat) (m : Mesh) : Mesh :=
  splice_m e (lnext (swap_m2 e m) (oprev m e)) (swap_m2 e m).

Definition swap_rings (e : nat) (m : Mesh) : Mesh :=
  splice_m (sym e) (lnext (swap_m3 e m) (oprev m (sym e))) (swap_m3 e m).

(** The arena after [Swap e]. *)
Definition swap_m (e : nat) (m : Mesh) : Mesh :=
  put_v (sym e) (vtx (swap_rings e m) (sym (oprev m (sym e))))
    (put_v e (vtx (swap_rings e m) (sym (oprev m e))) (swap_rings e m)).

Lemma OPrev_run (m : Mesh) i :
  wf m -> i < length m -> OPrev (Some i) m = Some (Some (oprev m i), m).
Proof.
  intros W Hi. pose proof (wf_groups m W) as G.
  unfold OPrev. cbn [Rot]. unfold bind at 1, ret at 1.
  rewrite (bind_run _ _ m m (nxt m (rot i))) by (apply ONext_run, rot_lt; auto).
  rewrite wf_nxt by auto using rot_lt. reflexivity.
Qed.

Lemma LNext_run (m : Mesh) i :
  wf m -> i < length m -> LNext (Some i) m = Some (Some (lnext m i), m).
Proof.
  intros W Hi. pose proof (wf_groups m W) as G.
  unfold LNext. cbn [InvRot]. unfold bind at 1, ret at 1.
  rewrite (bind_run _ _ m m (nxt m (invrot i))) by (apply ONext_run, invrot_lt; auto).
  rewrite wf_nxt by auto using invrot_lt. reflexivity.
Qed.

Lemma Dest_run (m : Mesh) i :
  length m mod 4 = 0 -> i < length m ->
  Dest (Some i) m = Some (vtx m (sym i), m).
Proof.
  intros G Hi. unfold Dest. cbn [Sym]. unfold bind at 1, ret at 1.
  apply Orig_run, sym_lt; auto.
Qed.

Lemma EndPoints_run (m : Mesh) i o d :
  length m mod 4 = 0 -> i < length m ->
  EndPoints (Some i) o d m = Some (tt, put_v (sym i) d (put_v i o m)).
Proof.
  intros G Hi. unfold EndPoints.
  rewrite (bind_run _ _ m (put_v i o m) tt) by (apply set_v_run; auto).
  cbn [Sym]. unfold bind at 1, ret at 1.
  apply set_v_run. rewrite length_put_v. apply sym_lt; auto.
Qed.

Lemma oprev_lt (m : Mesh) i : wf m -> i < length m -> oprev m i < length m.
Proof. intros W Hi. apply (qp_prev_lt _ _ (proj2 W)), Hi. Qed.

Lemma oprev_parity (m : Mesh) i : wf m -> i < length m -> oprev m i mod 2 = i mod 2.
Proof. intros W Hi. apply (qp_prev_parity _ _ (proj2 W)), Hi. Qed.

Lemma lnext_lt (m : Mesh) i : wf m -> i < length m -> lnext m i < length m.
Proof.
  intros W Hi. pose proof (wf_groups m W).
  apply rot_lt, wf_range; auto using invrot_lt.
Qed.

Lemma lnext_parity (m : Mesh) i : wf m -> i < length m -> lnext m i mod 2 = i mod 2.
Proof.
  intros W Hi. pose proof (wf_groups m W).
  pose proof (qp_parity _ _ (proj2 W) (invrot i) (invrot_lt _ _ H Hi)).
  pose proof (invrot_parity i). pose proof (rot_parity (nx m (invrot i))).
  unfold lnext. lia.
Qed.

Lemma Splice_ok (m : Mesh) a b :
  wf m -> a < length m -> b < length m -> a mod 2 = b mod 2 ->
  Splice (Some a) (Some b) m = Some (tt, splice_m a b m) /\
  wf (splice_m a b m) /\ length (splice_m a b m) = length m.
Proof.
  intros W Ha Hb Hab.
  destruct (Splice_wf m a b W Ha Hb Hab) as (R & L & W' & _). auto.
Qed.

Lemma vtx_splice_m a b (m : Mesh) x : vtx (splice_m a b m) x = vtx m x.
Proof. apply vtx_spliced. Qed.

Lemma wf_put_v (m : Mesh) i p : wf m -> wf (put_v i p m).
Proof.
  intros [WS WQ]. split.
  - intros x Hx. rewrite length_put_v in Hx. rewrite nxt_put_v. auto.
  - rewrite length_put_v. apply (qperm_ext _ (nx m)); auto.
    intros x. unfold nx. now rewrite nxt_put_v.
Qed.

Lemma Delete_ok (m : Mesh) e :
  wf m -> e < length m ->
  Delete (Some e) m = Some (tt, delete_m e m) /\
  wf (delete_m e m) /\ length (delete_m e m) = length m.
Proof.
  intros W He. pose proof (wf_groups m W) as G.
  unfold Delete, delete_m. cbn [is_nil Sym]. unfold bind at 1, ret at 1.
  destruct (Splice_ok m e (oprev m e) W He) as (R1 & W1 & L1);
    [apply oprev_lt; auto | symmetry; apply oprev_parity; auto |].
  set (m1 := splice_m e (oprev m e) m) in *.
  assert (Hs : sym e < length m1) by (rewrite L1; apply sym_lt; auto).
  destruct (Splice_ok m1 (sym e) (oprev m1 (sym e)) W1 Hs) as (R2 & W2 & L2);
    [apply oprev_lt; auto | symmetry; apply oprev_parity; auto |].
  rewrite (bind_run _ _ m m1 tt).
  2:{ rewrite (bind_run _ _ m m (Some (oprev m e))) by (apply OPrev_run; auto).
      exact R1. }
  rewrite (bind_run _ _ m1 m1 (Some (oprev m1 (sym e)))) by (apply OPrev_run; auto).
  split; [exact R2|]. split; [exact W2 | lia].
Qed.

Section SwapStages.
Variables (m : Mesh) (e : nat).
Hypothesis W : wf m.
Hypothesis He : e < length m.

Let a := oprev m e.
Let b := oprev m (sym e).

Lemma swap_sym_lt : sym e < length m.
Proof. apply sym_lt; auto using wf_groups. Qed.

Lemma swap_a_lt : a < length m.
Proof. apply oprev_lt; auto. Qed.

Lemma swap_b_lt : b < length m.
Proof. apply oprev_lt; auto using swap_sym_lt. Qed.

Lemma swap_a_parity : e mod 2 = a mod 2.
Proof. symmetry. apply oprev_parity; auto. Qed.

Lemma swap_b_parity : sym e mod 2 = b mod 2.
Proof. symmetry. apply oprev_parity; auto using swap_sym_lt. Qed.

Lemma swap_stage1 :
  Splice (Some e) (Some a) m = Some (tt, swap_m1 e m) /\
  wf (swap_m1 e m) /\ length (swap_m1 e m) = length m.
Proof. apply Splice_ok; auto using swap_a_lt, swap_a_parity. Qed.

Lemma swap_stage2 :
  Splice (Some (sym e)) (Some b) (swap_m1 e m) = Some (tt, swap_m2 e m) /\
  wf (swap_m2 e m) /\ length (swap_m2 e m) = length m.
Proof.
  destruct swap_stage1 as (_ & W1 & L1).
  destruct (Splice_ok (swap_m1 e m) (sym e) b W1) as (R & W2 & L2).
  - rewrite L1. apply swap_sym_lt.
  - rewrite L1. apply swap_b_lt.
  - apply swap_b_parity.
  - split; [exact R|]. split; [exact W2|]. unfold swap_m2. fold b. congruence.
Qed.

Lemma swap_l3_lt : lnext (swap_m2 e m) a < length m.
Proof.
  destruct swap_stage2 as (_ & W2 & L2). rewrite <- L2.
  apply lnext_lt; auto. rewrite L2. apply swap_a_lt.
Qed.

Lemma swap_stage3 :
  Splice (Some e) (Some (lnext (swap_m2 e m) a)) (swap_m2 e m)
    = Some (tt, swap_m3 e m) /\
  wf (swap_m3 e m) /\ length (swap_m3 e m) = length m.
Proof.
  destruct swap_stage2 as (_ & W2 & L2).
  destruct (Splice_ok (swap_m2 e m) e (lnext (swap_m2 e m) a) W2) as (R & W3 & L3).
  - now rewrite L2.
  - rewrite L2. apply swap_l3_lt.
  - rewrite lnext_parity; auto; [apply swap_a_parity | rewrite L2; apply swap_a_lt].
  - split; [exact R|]. split; [exact W3|]. unfold swap_m3. fold a. congruence.
Qed.

Lemma swap_l4_lt : lnext (swap_m3 e m) b < length m.
Proof.
  destruct swap_stage3 as (_ & W3 & L3). rewrite <- L3.
  apply lnext_lt; auto. rewrite L3. apply swap_b_lt.
Qed.

Lemma swap_stage4 :
  Splice (Some (sym e)) (Some (lnext (swap_m3 e m) b)) (swap_m3 e m)
    = Some (tt, swap_rings e m) /\
  wf (swap_rings e m) /\ length (swap_rings e m) = length m.
Proof.
  destruct swap_stage3 as (_ & W3 & L3).
  destruct (Splice_ok (swap_m3 e m) (sym e) (lnext (swap_m3 e m) b) W3) as (R & W4 & L4).
  - rewrite L3. apply swap_sym_lt.
  - rewrite L3. apply swap_l4_lt.
  - rewrite lnext_parity; auto; [apply swap_b_parity | rewrite L3; apply swap_b_lt].
  - split; [exact R|]. split; [exact W4|]. unfold swap_rings. fold b. congruence.
Qed.

Lemma vtx_swap_rings x : vtx (swap_rings e m) x = vtx m x.
Proof.
  unfold swap_rings, swap_m3, swap_m2, swap_m1. now rewrite !vtx_splice_m.
Qed.
End SwapStages.

Lemma Swap_steps (m m1 m2 m3 m4 mf : Mesh) e a b l3 l4 o d :
  OPrev (Some e) m = Some (Some a, m) ->
  OPrev (Some (sym e)) m = Some (Some b, m) ->
  Splice (Some e) (Some a) m = Some (tt, m1) ->
  Splice (Some (sym e)) (Some b) m1 = Some (tt, m2) ->
  LNext (Some a) m2 = Some (Some l3, m2) ->
  Splice (Some e) (Some l3) m2 = Some (tt, m3) ->
  LNext (Some b) m3 = Some (Some l4, m3) ->
  Splice (Some (sym e)) (Some l4) m3 = Some (tt, m4) ->
  Dest (Some a) m4 = Some (o, m4) ->
  Dest (Some b) m4 = Some (d, m4) ->
  EndPoints (Some e) o d m4 = Some (tt, mf) ->
  Swap (Some e) m = Some (tt, mf).
Proof.
  intros H1 H2 H3 H4 H5 H6 H7 H8 H9 H10 H11. unfold Swap.
  rewrite (bind_run _ _ m m (Some a)) by exact H1.
  rewrite (bind_run _ _ m m (Some b))
    by (cbn [Sym]; unfold bind at 1, ret at 1; exact H2).
  rewrite (bind_run _ _ m m1 tt) by exact H3.
  rewrite (bind_run _ _ m1 m2 tt)
    by (cbn [Sym]; unfold bind at 1, ret at 1; exact H4).
  rewrite (bind_run _ _ m2 m3 tt)
    by (rewrite (bind_run _ _ m2 m2 (Some l3)) by exact H5; exact H6).
  rewrite (bind_run _ _ m3 m4 tt).
  2:{ cbn [Sym]. unfold bind at 1, ret at 1.
      rewrite (bind_run _ _ m3 m3 (Some l4)) by exact H7. exact H8. }
  rewrite (bind_run _ _ m4 m4 o) by exact H9.
  rewrite (bind_run _ _ m4 m4 d) by exact H10.
  exact H11.
Qed.

Lemma Swap_ok (m : Mesh) e :
  wf m -> e < length m ->
  Swap (Some e) m = Some (tt, swap_m e m) /\
  wf (swap_m e m) /\ length (swap_m e m) = length m.
Proof.
  intros W He. pose proof (wf_groups m W) as G.
  destruct (swap_stage1 m e W He) as (R1 & W1 & L1).
  destruct (swap_stage2 m e W He) as (R2 & W2 & L2).
  destruct (swap_stage3 m e W He) as (R3 & W3 & L3).
  destruct (swap_stage4 m e W He) as (R4 & W4 & L4).
  pose proof (swap_sym_lt m e W He) as Hs.
  pose proof (swap_a_lt m e W He) as Ha.
  pose proof (swap_b_lt m e W He) as Hb.
  split; [|split].
  - eapply Swap_steps.
    + apply OPrev_run; auto.
    + apply OPrev_run; auto.
    + exact R1.
    + exact R2.
    + apply LNext_run; auto. now rewrite L2.
    + exact R3.
    + apply LNext_run; auto. now rewrite L3.
    + exact R4.
    + apply Dest_run; rewrite L4; auto.
    + apply Dest_run; rewrite L4; auto.
    + apply EndPoints_run; rewrite L4; auto.
  - unfold swap_m. now apply wf_put_v, wf_put_v.
  - unfold swap_m. now rewrite !length_put_v.
Qed.

(** ** Allocation of a quad-edge group *)

(** Modelled from the spec: the constructors [New] and [NewWithEndPoints]
    (not in topo.go).  A fresh group of four is allocated together, with
    unset endpoints; it is the isolated edge of Guibas and Stolfi's MakeEdge:
    the edge and its symmetric edge are alone in their origin rings and the
    two dual edges follow each other.  The endpoints are then given by
    [EndPoints]; the result is the first edge of the group. *)
Definition fresh_group (e : nat) : list Edge :=
  [ mkEdge (Some e) None; mkEdge (Some (e + 3)) None;
    mkEdge (Some (e + 2)) None; mkEdge (Some (e + 1)) None ].

Definition New : M EdgeRef :=
  fun m => Some (Some (length m), m ++ fresh_group (length m)).

Definition NewWithEndPoints (org dest : option Point) : M EdgeRef :=
  let* e := New in
  EndPoints e org dest ;;
  ret e.

Definition alloc (m : Mesh) : Mesh := m ++ fresh_group (length m).

Lemma length_alloc (m : Mesh) : length (alloc m) = length m + 4.
Proof. unfold alloc. rewrite length_app. reflexivity. Qed.

Lemma nxt_alloc_old (m : Mesh) i : i < length m -> nxt (alloc m) i = nxt m i.
Proof. intros H. unfold nxt, alloc. now rewrite lookup_app_l. Qed.

Lemma vtx_alloc_old (m : Mesh) i : i < length m -> vtx (alloc m) i = vtx m i.
Proof. intros H. unfold vtx, alloc. now rewrite lookup_app_l. Qed.

Lemma nxt_alloc_new (m : Mesh) k :
  k < 4 ->
  nxt (alloc m) (length m + k) =
    Some (length m + match k with 0 => 0 | 1 => 3 | 2 => 2 | _ => 1 end).
Proof.
  intros H. unfold nxt, alloc. rewrite lookup_app_r by lia.
  replace (length m + k - length m) with k by lia.
  destruct k as [|[|[|[|k]]]]; try lia; cbn; f_equal; lia.
Qed.

Lemma vtx_alloc_new (m : Mesh) i : length m <= i -> vtx (alloc m) i = None.
Proof.
  intros H. unfold vtx, alloc. rewrite lookup_app_r by lia.
  destruct (i - length m) as [|[|[|[|k]]]]; reflexivity.
Qed.

Lemma nx_alloc_old (m : Mesh) i : i < length m -> nx (alloc m) i = nx m i.
Proof. intros H. unfold nx. now rewrite nxt_alloc_old. Qed.

Lemma nx_alloc_new (m : Mesh) k :
  k < 4 ->
  nx (alloc m) (length m + k) =
    length m + match k with 0 => 0 | 1 => 3 | 2 => 2 | _ => 1 end.
Proof. intros H. unfold nx. now rewrite nxt_alloc_new. Qed.

Lemma wf_alloc (m : Mesh) : wf m -> wf (alloc m).
Proof.
  intros W. pose proof (wf_groups m W) as G. destruct W as [WS WQ].
  assert (W : wf m) by (split; auto).
  assert (C : forall i, i < length m + 4 ->
            i < length m \/ exists k, k < 4 /\ i = length m + k).
  { intros i Hi. destruct (decide (i < length m)); [now left|right].
    exists (i - length m). lia. }
  split.
  - intros i Hi. rewrite length_alloc in Hi.
    destruct (C i Hi) as [Lt | (k & Hk & ->)].
    + rewrite nxt_alloc_old by auto. auto.
    + rewrite nxt_alloc_new by auto. eauto.
  - rewrite length_alloc. constructor.
    + zify; Z.div_mod_to_equations; lia.
    + intros i Hi. destruct (C i Hi) as [Lt | (k & Hk & ->)].
      * rewrite nx_alloc_old by auto. pose proof (qp_range _ _ WQ i Lt). lia.
      * rewrite nx_alloc_new by auto. destruct k as [|[|[|[|k]]]]; lia.
    + intros i Hi. destruct (C i Hi) as [Lt | (k & Hk & ->)].
      * rewrite nx_alloc_old by auto. apply (qp_parity _ _ WQ i Lt).
      * rewrite nx_alloc_new by auto.
        destruct k as [|[|[|[|k]]]]; try lia; zify; Z.div_mod_to_equations; lia.
    + intros i Hi. destruct (C i Hi) as [Lt | (k & Hk & ->)].
      * rewrite (nx_alloc_old m i) by auto.
        rewrite nx_alloc_old by (apply rot_lt; auto; apply (qp_range _ _ WQ i Lt)).
        apply (qp_dual _ _ WQ i Lt).
      * rewrite nx_alloc_new by auto.
        destruct k as [|[|[|[|k]]]]; try lia.
        -- replace (rot (length m + 0)) with (length m + 1) by quad.
           rewrite nx_alloc_new by lia. quad.
        -- replace (rot (length m + 3)) with (length m + 0) by quad.
           rewrite nx_alloc_new by lia. quad.
        -- replace (rot (length m + 2)) with (length m + 3) by quad.
           rewrite nx_alloc_new by lia. quad.
        -- replace (rot (length m + 1)) with (length m + 2) by quad.
           rewrite nx_alloc_new by lia. quad.
Qed.

Lemma New_run (m : Mesh) : New m = Some (Some (length m), alloc m).
Proof. reflexivity. Qed.

Lemma NewWithEndPoints_run (m : Mesh) o d :
  length m mod 4 = 0 ->
  NewWithEndPoints o d m =
    Some (Some (length m),
          put_v (sym (length m)) d (put_v (length m) o (alloc m))).
Proof.
  intros G. unfold NewWithEndPoints.
  rewrite (bind_run _ _ m (alloc m) (Some (length m))) by apply New_run.
  rewrite (bind_run _ _ (alloc m) (put_v (sym (length m)) d (put_v (length m) o (alloc m))) tt).
  - reflexivity.
  - apply EndPoints_run; rewrite length_alloc; [|lia].
    zify; Z.div_mod_to_equations; lia.
Qed.

Lemma nx_splice_m (m : Mesh) a b x :
  wf m -> a < length m -> b < length m -> a mod 2 = b mod 2 ->
  nx (splice_m a b m) x = nx m (swap4 a b (rot (nx m a)) (rot (nx m b)) x).
Proof.
  intros W Ha Hb Hab.
  destruct (Splice_wf m a b W Ha Hb Hab) as (_ & _ & _ & _ & N).
  apply N.
Qed.

(** Discharges the premises of [H] that are among the assumptions. *)
Ltac feed H :=
  repeat match type of H with
         | ?P -> _ =>
             let h := fresh in
             assert (h : P) by (assumption || lia); specialize (H h); clear h
         end.

(** ** Connect (topo.go, lines 44-121) *)

Section Connect.
(** [winding.Order] and [ResolveEdge] are declared outside topo.go; they
    are parameters of [Connect].  The error [ResolveEdge] returns is only
    looked at when the constant [debug] is set; the tracing and the
    validation run under [debug] are left out. *)
Variable Order : Type.
Variable ResolveEdge : Order -> EdgeRef -> Point -> M EdgeRef.

Definition Connect (a b : EdgeRef) (order : Order) : M EdgeRef :=
  if is_nil b || is_nil a then ret None else
  let* ad := Dest a in
  match ad with
  | None => panic
  | Some pt =>
      let* bb := ResolveEdge order b pt in
      let* o := Dest a in
      let* d := Orig bb in
      let* e := NewWithEndPoints o d in
      (let* l := LNext a in Splice e l) ;;
      (let* s := Sym e in Splice s bb) ;;
      ret e
  end.

Lemma Connect_steps (m m0 m1 m2 : Mesh) a b bb order pt o d e l :
  Dest (Some a) m = Some (Some pt, m) ->
  ResolveEdge order (Some b) pt m = Some (Some bb, m) ->
  Dest (Some a) m = Some (o, m) ->
  Orig (Some bb) m = Some (d, m) ->
  NewWithEndPoints o d m = Some (Some e, m0) ->
  LNext (Some a) m0 = Some (Some l, m0) ->
  Splice (Some e) (Some l) m0 = Some (tt, m1) ->
  Splice (Some (sym e)) (Some bb) m1 = Some (tt, m2) ->
  Connect (Some a) (Some b) order m = Some (Some e, m2).
Proof.
  intros H1 H2 H3 H4 H5 H6 H7 H8. unfold Connect. cbn [is_nil orb].
  rewrite (bind_run _ _ m m (Some pt)) by exact H1.
  rewrite (bind_run _ _ m m (Some bb)) by exact H2.
  rewrite (bind_run _ _ m m o) by exact H3.
  rewrite (bind_run _ _ m m d) by exact H4.
  rewrite (bind_run _ _ m m0 (Some e)) by exact H5.
  rewrite (bind_run _ _ m0 m1 tt)
    by (rewrite (bind_run _ _ m0 m0 (Some l)) by exact H6; exact H7).
  rewrite (bind_run _ _ m1 m2 tt)
    by (cbn [Sym]; unfold bind at 1, ret at 1; exact H8).
  reflexivity.
Qed.
End Connect.

(** The arena after the allocation, and after each splice, of [Connect]
    ([bb] is the resolved edge). *)
Definition connect_m0 (a bb : nat) (m : Mesh) : Mesh :=
  put_v (sym (length m)) (vtx m bb) (put_v (length m) (vtx m (sym a)) (alloc m)).

Definition connect_m1 (a bb : nat) (m : Mesh) : Mesh :=
  splice_m (length m) (lnext (connect_m0 a bb m) a) (connect_m0 a bb m).

Definition connect_m (a bb : nat) (m : Mesh) : Mesh :=
  splice_m (sym (length m)) bb (connect_m1 a bb m).

Section ConnectStages.
Variables (m : Mesh) (a bb : nat).
Hypothesis W : wf m.
Hypothesis Ha : a < length m.
Hypothesis Hbb : bb < length m.
Hypothesis Pa : a mod 2 = 0.
Hypothesis Pbb : bb mod 2 = 0.

Let e := length m.

Lemma connect_e_parity : e mod 2 = 0.
Proof. pose proof (wf_groups m W). unfold e. zify; Z.div_mod_to_equations; lia. Qed.

Lemma connect_sym_e : sym e = e + 2.
Proof. pose proof (wf_groups m W). unfold e. quad. Qed.

Lemma connect_rot_e : rot e = e + 1.
Proof. pose proof (wf_groups m W). unfold e. quad. Qed.

Lemma connect_invrot_e : invrot e = e + 3.
Proof. pose proof (wf_groups m W). unfold e. quad. Qed.

Lemma connect_stage0 :
  wf (connect_m0 a bb m) /\ length (connect_m0 a bb m) = e + 4.
Proof.
  unfold connect_m0. split.
  - now apply wf_put_v, wf_put_v, wf_alloc.
  - now rewrite !length_put_v, length_alloc.
Qed.

Lemma nx_connect_m0 x : nx (connect_m0 a bb m) x = nx (alloc m) x.
Proof. unfold connect_m0, nx. now rewrite !nxt_put_v. Qed.

Lemma lnext_connect_m0 : lnext (connect_m0 a bb m) a = lnext m a.
Proof.
  unfold lnext. rewrite nx_connect_m0, nx_alloc_old; auto.
  apply invrot_lt; auto using wf_groups.
Qed.

Lemma connect_l_lt : lnext m a < e.
Proof. apply lnext_lt; auto. Qed.

Lemma connect_l_parity : lnext m a mod 2 = 0.
Proof. rewrite lnext_parity; auto. Qed.

Lemma connect_stage1 :
  Splice (Some e) (Some (lnext m a)) (connect_m0 a bb m)
    = Some (tt, connect_m1 a bb m) /\
  wf (connect_m1 a bb m) /\ length (connect_m1 a bb m) = e + 4.
Proof.
  destruct connect_stage0 as (W0 & L0).
  pose proof connect_l_lt. pose proof connect_l_parity. pose proof connect_e_parity.
  destruct (Splice_ok (connect_m0 a bb m) e (lnext m a) W0) as (R & W1 & L1);
    try lia.
  unfold connect_m1. fold e. rewrite lnext_connect_m0.
  split; [exact R|]. split; [exact W1 | lia].
Qed.

Lemma connect_stage2 :
  Splice (Some (sym e)) (Some bb) (connect_m1 a bb m)
    = Some (tt, connect_m a bb m) /\
  wf (connect_m a bb m) /\ length (connect_m a bb m) = e + 4.
Proof.
  destruct connect_stage1 as (_ & W1 & L1).
  pose proof connect_sym_e. pose proof connect_e_parity. pose proof (sym_parity e).
  destruct (Splice_ok (connect_m1 a bb m) (sym e) bb W1) as (R & W2 & L2);
    try lia.
  unfold connect_m. fold e.
  split; [exact R|]. split; [exact W2 | lia].
Qed.

Lemma vtx_connect_m x :
  vtx (connect_m a bb m) x =
    if decide (x = sym e) then vtx m bb
    else if decide (x = e) then vtx m (sym a)
    else vtx (alloc m) x.
Proof.
  unfold connect_m, connect_m1. rewrite !vtx_splice_m. unfold connect_m0.
  fold e. pose proof connect_sym_e.
  rewrite vtx_put_v by (rewrite length_put_v, length_alloc; fold e; lia).
  rewrite vtx_put_v by (rewrite length_alloc; fold e; lia).
  reflexivity.
Qed.
End ConnectStages.

Lemma Connect_ok Order (ResolveEdge : Order -> EdgeRef -> Point -> M EdgeRef)
    (m : Mesh) a b bb order pt :
  wf m -> a < length m -> bb < length m ->
  a mod 2 = 0 -> bb mod 2 = 0 ->
  vtx m (sym a) = Some pt ->
  ResolveEdge order (Some b) pt m = Some (Some bb, m) ->
  Connect Order ResolveEdge (Some a) (Some b) order m
    = Some (Some (length m), connect_m a bb m) /\
  wf (connect_m a bb m) /\ length (connect_m a bb m) = length m + 4.
Proof.
  intros W Ha Hbb Pa Pbb Hpt HR. pose proof (wf_groups m W) as G.
  pose proof (connect_stage0 m a bb) as S0. feed S0. destruct S0 as (W0 & L0).
  pose proof (connect_stage1 m a bb) as S1. feed S1. destruct S1 as (R1 & W1 & L1).
  pose proof (connect_stage2 m a bb) as S2. feed S2. destruct S2 as (R2 & W2 & L2).
  split; [|split; auto].
  eapply Connect_steps.
  - rewrite Dest_run by auto. rewrite Hpt. reflexivity.
  - exact HR.
  - apply Dest_run; auto.
  - apply Orig_run; auto.
  - apply NewWithEndPoints_run; auto.
  - fold (connect_m0 a bb m). rewrite LNext_run by (auto; lia).
    rewrite lnext_connect_m0 by auto. reflexivity.
  - exact R1.
  - exact R2.
Qed.

(** ** The order of float64 *)

Module F64Facts.
Import F64.

(** Non-NaN numbers are ordered as the triples (class, exponent,
    mantissa), the two zeros being equal. *)
Definition rank (x : float64) : Z * Z * Z :=
  match x with
  | S754_zero _ => (0, 0, 0)
  | S754_nan => (0, 0, 0)
  | S754_infinity s => (if s then -2 else 2, 0, 0)
  | S754_finite s m e => if s then (-1, - e, - Zpos m) else (1, e, Zpos m)
  end%Z.

Definition lex_lt (p q : Z * Z * Z) : Prop :=
  match p, q with
  | (a1, b1, c1), (a2, b2, c2) =>
      (a1 < a2 \/ (a1 = a2 /\ (b1 < b2 \/ (b1 = b2 /\ c1 < c2))))%Z
  end.

Lemma lt_rank x y :
  lt x y = true <->
  is_nan x = false /\ is_nan y = false /\ lex_lt (rank x) (rank y).
Proof.
  unfold lt, SFltb, SFcompare.
  destruct x as [sx|sx| |sx mx ex], y as [sy|sy| |sy my ey]; cbn;
    try destruct sx; try destruct sy; cbn;
    try (split; [discriminate | intros (? & ? & ?); try discriminate; lia]);
    try (split; [intros _; repeat split; lia | reflexivity]).
  - change (Pos.compare_cont Eq mx my) with (Pos.compare mx my).
    destruct (Z.compare_spec ex ey), (Pos.compare_spec mx my); cbn;
      (split; [try discriminate; intros _; repeat split; lia
              | intros (? & ? & ?); try reflexivity; lia]).
  - change (Pos.compare_cont Eq mx my) with (Pos.compare mx my).
    destruct (Z.compare_spec ex ey), (Pos.compare_spec mx my); cbn;
      (split; [try discriminate; intros _; repeat split; lia
              | intros (? & ? & ?); try reflexivity; lia]).
Qed.

Lemma lt_trans x y z : lt x y = true -> lt y z = true -> lt x z = true.
Proof.
  rewrite !lt_rank. intros (Nx & Ny & L1) (_ & Nz & L2).
  repeat split; auto. unfold lex_lt in *.
  destruct (rank x) as [[a1 b1] c1], (rank y) as [[a2 b2] c2],
           (rank z) as [[a3 b3] c3]. lia.
Qed.

Lemma lt_irrefl x : lt x x = false.
Proof.
  destruct (lt x x) eqn:E; auto. apply lt_rank in E as (_ & _ & L).
  unfold lex_lt in L. destruct (rank x) as [[a b] c]. lia.
Qed.

Lemma lt_asym x y : lt x y = true -> lt y x = false.
Proof.
  intros H. destruct (lt y x) eqn:E; auto.
  pose proof (lt_trans x y x H E) as C. rewrite lt_irrefl in C. discriminate.
Qed.

Lemma lt_not_nan x y : lt x y = true -> is_nan x = false /\ is_nan y = false.
Proof. rewrite lt_rank. tauto. Qed.

(** Without NaN the order is total. *)
Lemma not_lt_le x y :
  is_nan x = false -> is_nan y = false -> lt x y = false -> le y x = true.
Proof.
  unfold lt, le, SFltb, SFleb, SFcompare.
  destruct x as [sx|sx| |sx mx ex], y as [sy|sy| |sy my ey]; cbn;
    try destruct sx; try destruct sy; cbn; try congruence.
  - change (Pos.compare_cont Eq mx my) with (Pos.compare mx my).
    change (Pos.compare_cont Eq my mx) with (Pos.compare my mx).
    rewrite (Z.compare_antisym ex ey), (Pos.compare_antisym mx my).
    destruct (ex ?= ey)%Z, (mx ?= my)%positive; cbn; congruence.
  - change (Pos.compare_cont Eq mx my) with (Pos.compare mx my).
    change (Pos.compare_cont Eq my mx) with (Pos.compare my mx).
    rewrite (Z.compare_antisym ex ey), (Pos.compare_antisym mx my).
    destruct (ex ?= ey)%Z, (mx ?= my)%positive; cbn; congruence.
Qed.
End F64Facts.

(** ** Geometric predicates (topo.go, lines 150-190) *)

Definition zero : float64 := S754_zero false.
Definition one : float64 := Eval vm_compute in F64.of_Z 1.
Definition minus_one : float64 := Eval vm_compute in F64.of_Z (-1).

(** Modelled from the spec: [geom.Point.Subtract] and
    [geom.Point.CrossProduct] (package geom is not among the sources):
    the difference of two points and the cross product of two vectors. *)
Definition Subtract (p q : Point) : Point :=
  (F64.sub (fst p) (fst q), F64.sub (snd p) (snd q)).

Definition CrossProduct (p q : Point) : float64 :=
  F64.sub (F64.mul (fst p) (snd q)) (F64.mul (snd p) (fst q)).

Section Predicates.
(** [planar.IsPointOnLineSegment] is the delegated segment-membership
    test; it is a parameter, with the line given by its two points. *)
Variable IsPointOnLineSegment : Point -> Point * Point -> bool.

(** The fixed tolerance of package cmp, and the sign bit that
    [math.Signbit] reads off a NaN (the float64 of this file has a single
    NaN, Go's NaNs carry a sign). *)
Variable Tolerance : float64.
Variable nan_signbit : bool.

(** Modelled from the spec: [cmp.Float] (package cmp is not among the
    sources), the comparison of two numbers up to the fixed tolerance. *)
Definition cmp_Float (f1 f2 : float64) : bool :=
  F64.lt (F64.abs (F64.sub f1 f2)) Tolerance.

Definition Signbit (f : float64) : bool :=
  match f with
  | S754_zero s | S754_infinity s | S754_finite s _ _ => s
  | S754_nan => nan_signbit
  end.

Definition sign (f : float64) : float64 :=
  if cmp_Float f zero then zero
  else if Signbit f then minus_one
  else one.

Definition OnEdge (pt : Point) (e : EdgeRef) : M bool :=
  let* org := Orig e in
  match org with
  | None => ret false
  | Some o =>
      let* dst := Dest e in
      match dst with
      | None => ret false
      | Some d => ret (IsPointOnLineSegment pt (o, d))
      end
  end.

Definition RightOf (yflip : bool) (x : Point) (e : EdgeRef) : M bool :=
  let mul := if yflip then minus_one else one in
  let* org := Orig e in
  match org with
  | None => ret false
  | Some o =>
      let* dst := Dest e in
      match dst with
      | None => ret false
      | Some d =>
          ret (F64.eq (sign (CrossProduct (Subtract x o) (Subtract d o))) mul)
      end
  end.

Lemma OnEdge_run (m : Mesh) e pt :
  length m mod 4 = 0 -> e < length m ->
  OnEdge pt (Some e) m =
    Some (match vtx m e, vtx m (sym e) with
          | Some o, Some d => IsPointOnLineSegment pt (o, d)
          | _, _ => false
          end, m).
Proof.
  intros G He. unfold OnEdge.
  rewrite (bind_run _ _ m m (vtx m e)) by (apply Orig_run; auto).
  destruct (vtx m e) as [o|]; [|reflexivity].
  rewrite (bind_run _ _ m m (vtx m (sym e))) by (apply Dest_run; auto).
  destruct (vtx m (sym e)); reflexivity.
Qed.

Lemma RightOf_run (m : Mesh) e yflip x :
  length m mod 4 = 0 -> e < length m ->
  RightOf yflip x (Some e) m =
    Some (match vtx m e, vtx m (sym e) with
          | Some o, Some d =>
              F64.eq (sign (CrossProduct (Subtract x o) (Subtract d o)))
                     (if yflip then minus_one else one)
          | _, _ => false
          end, m).
Proof.
  intros G He. unfold RightOf. cbv zeta.
  rewrite (bind_run _ _ m m (vtx m e)) by (apply Orig_run; auto).
  destruct (vtx m e) as [o|]; [|reflexivity].
  rewrite (bind_run _ _ m m (vtx m (sym e))) by (apply Dest_run; auto).
  destruct (vtx m (sym e)); reflexivity.
Qed.

Lemma abs_sub_zero c : F64.abs (F64.sub c zero) = F64.abs c.
Proof. destruct c as [[|]|[|]| |[|] mc ec]; reflexivity. Qed.

Lemma sign_within c : cmp_Float c zero = true -> sign c = zero.
Proof. intros H. unfold sign. now rewrite H. Qed.

Lemma sign_beyond c :
  F64.le zero Tolerance = true -> F64.lt Tolerance (F64.abs c) = true ->
  sign c = if F64.lt c zero then minus_one else one.
Proof.
  intros H0 H1. unfold sign, cmp_Float. rewrite abs_sub_zero.
  rewrite (F64Facts.lt_asym _ _ H1).
  pose proof (F64Facts.lt_not_nan _ _ H1) as [_ NN].
  destruct c as [sc|sc| |sc mc ec]; cbn; cbn in NN.
  - exfalso. cbn in H1. unfold F64.le, F64.lt, SFleb, SFltb, zero in *.
    destruct Tolerance as [[|]|[|]| |[|] mt et]; cbn in *; discriminate.
  - destruct sc; reflexivity.
  - discriminate.
  - destruct sc; reflexivity.
Qed.

Lemma beyond_sign_cases c :
  F64.le zero Tolerance = true -> F64.lt Tolerance (F64.abs c) = true ->
  F64.eq (sign c) one = F64.lt zero c /\
  F64.eq (sign c) minus_one = F64.lt c zero.
Proof.
  intros H0 H1. rewrite (sign_beyond c H0 H1).
  pose proof (F64Facts.lt_not_nan _ _ H1) as [_ NN].
  destruct c as [sc|sc| |sc mc ec]; cbn; cbn in NN.
  - exfalso. cbn in H1. unfold F64.le, F64.lt, SFleb, SFltb, zero in *.
    destruct Tolerance as [[|]|[|]| |[|] mt et]; cbn in *; discriminate.
  - destruct sc; split; reflexivity.
  - discriminate.
  - destruct sc; split; reflexivity.
Qed.
End Predicates.

(** ** BBox (package util) *)

(** [BoundingBox] is [[4]float64]: min x, min y, max x, max y. *)
Record BoundingBox : Type := mkBBox {
  b0 : float64; b1 : float64; b2 : float64; b3 : float64
}.

(** The first iteration of the loop ([i == 0]). *)
Definition seed (xy : Point) : BoundingBox :=
  mkBBox (fst xy) (snd xy) (fst xy) (snd xy).

(** The first [switch]: on the x coordinate. *)
Definition widen_x (x : float64) (bbox : BoundingBox) : BoundingBox :=
  if F64.lt x (b0 bbox) then mkBBox x (b1 bbox) (b2 bbox) (b3 bbox)
  else if F64.gt x (b2 bbox) then mkBBox (b0 bbox) (b1 bbox) x (b3 bbox)
  else bbox.

(** The second [switch]: on the y coordinate. *)
Definition widen_y (y : float64) (bbox : BoundingBox) : BoundingBox :=
  if F64.lt y (b1 bbox) then mkBBox (b0 bbox) y (b2 bbox) (b3 bbox)
  else if F64.gt y (b3 bbox) then mkBBox (b0 bbox) (b1 bbox) (b2 bbox) y
  else bbox.

Definition widen (bbox : BoundingBox) (xy : Point) : BoundingBox :=
  widen_y (snd xy) (widen_x (fst xy) bbox).

(** The body of the loop, at index [i]. *)
Definition BBox_body (i : nat) (xy : Point) (bbox : BoundingBox) : BoundingBox :=
  if i =? 0 then seed xy else widen bbox xy.

(** [for i := range points], from index [i] on. *)
Fixpoint BBox_loop (i : nat) (points : list Point) (bbox : BoundingBox)
  : BoundingBox :=
  match points with
  | [] => bbox
  | xy :: rest => BBox_loop (S i) rest (BBox_body i xy bbox)
  end.

Definition BBox (points : list Point) : BoundingBox :=
  BBox_loop 0 points (mkBBox zero zero zero zero).

(** One axis of the box: the running minimum and maximum. *)
Definition axis_step (lohi : float64 * float64) (x : float64)
  : float64 * float64 :=
  if F64.lt x (fst lohi) then (x, snd lohi)
  else if F64.gt x (snd lohi) then (fst lohi, x)
  else lohi.

Definition x_axis (b : BoundingBox) : float64 * float64 := (b0 b, b2 b).
Definition y_axis (b : BoundingBox) : float64 * float64 := (b1 b, b3 b).

Lemma x_axis_widen b xy : x_axis (widen b xy) = axis_step (x_axis b) (fst xy).
Proof.
  unfold widen, widen_y, widen_x, axis_step, x_axis. cbn [fst snd].
  destruct (F64.lt (fst xy) (b0 b)); cbn;
    [|destruct (F64.gt (fst xy) (b2 b)); cbn];
    repeat match goal with |- context [if ?c then _ else _] => destruct c end;
    reflexivity.
Qed.

Lemma y_axis_widen b xy : y_axis (widen b xy) = axis_step (y_axis b) (snd xy).
Proof.
  unfold widen, widen_y, widen_x, axis_step, y_axis. cbn [fst snd].
  destruct (F64.lt (fst xy) (b0 b)); cbn;
    [|destruct (F64.gt (fst xy) (b2 b)); cbn];
    repeat match goal with |- context [if ?c then _ else _] => destruct c end;
    reflexivity.
Qed.

Lemma BBox_loop_fold i ps b :
  BBox_loop (S i) ps b = fold_left widen ps b.
Proof. revert i b. induction ps as [|p ps IH]; intros i b; cbn; auto. Qed.

Lemma BBox_fold p ps : BBox (p :: ps) = fold_left widen ps (seed p).
Proof. unfold BBox. cbn. apply BBox_loop_fold. Qed.

Lemma BBox_snoc p ps q : BBox (p :: ps ++ [q]) = widen (BBox (p :: ps)) q.
Proof. rewrite !BBox_fold. apply fold_left_app. Qed.

Lemma x_axis_fold ps b :
  x_axis (fold_left widen ps b) = fold_left axis_step (map fst ps) (x_axis b).
Proof.
  revert b. induction ps as [|p ps IH]; intros b; cbn; auto.
  now rewrite IH, x_axis_widen.
Qed.

Lemma y_axis_fold ps b :
  y_axis (fold_left widen ps b) = fold_left axis_step (map snd ps) (y_axis b).
Proof.
  revert b. induction ps as [|p ps IH]; intros b; cbn; auto.
  now rewrite IH, y_axis_widen.
Qed.

(** What the running minimum and maximum of a sequence are: both are
    members, no member is below the minimum or above the maximum. *)
Definition extremes (xs : list float64) (lohi : float64 * float64) : Prop :=
  In (fst lohi) xs /\ In (snd lohi) xs /\
  (forall x, In x xs -> F64.lt x (fst lohi) = false) /\
  (forall x, In x xs -> F64.lt (snd lohi) x = false) /\
  F64.lt (snd lohi) (fst lohi) = false.

Lemma extremes_seed x : extremes [x] (x, x).
Proof.
  unfold extremes. cbn.
  repeat split; auto; try apply F64Facts.lt_irrefl;
    intros y [<-|[]]; apply F64Facts.lt_irrefl.
Qed.

Lemma in_snoc (xs : list float64) x y : In y (xs ++ [x]) <-> In y xs \/ y = x.
Proof. rewrite in_app_iff. cbn. intuition congruence. Qed.

Lemma extremes_step xs lohi x :
  extremes xs lohi -> extremes (xs ++ [x]) (axis_step lohi x).
Proof.
  destruct lohi as [lo hi]. intros (I1 & I2 & M1 & M2 & O). cbn [fst snd] in *.
  unfold axis_step, F64.gt. cbn [fst snd].
  destruct (F64.lt x lo) eqn:E1; [|destruct (F64.lt hi x) eqn:E2];
    unfold extremes; cbn [fst snd]; rewrite !in_snoc.
  - split; [now right|]. split; [now left|]. split; [|split].
    + intros y Hy. apply in_snoc in Hy as [Hy | ->]; [|apply F64Facts.lt_irrefl].
      destruct (F64.lt y x) eqn:E; auto.
      rewrite <- (M1 y Hy). symmetry. eapply F64Facts.lt_trans; eauto.
    + intros y Hy. apply in_snoc in Hy as [Hy | ->]; auto.
      destruct (F64.lt hi x) eqn:E; auto.
      rewrite <- O. symmetry. eapply F64Facts.lt_trans; eauto.
    + destruct (F64.lt hi x) eqn:E; auto.
      rewrite <- O. symmetry. eapply F64Facts.lt_trans; eauto.
  - split; [now left|]. split; [now right|]. split; [|split]; auto.
    + intros y Hy. apply in_snoc in Hy as [Hy | ->]; auto.
    + intros y Hy. apply in_snoc in Hy as [Hy | ->]; [|apply F64Facts.lt_irrefl].
      destruct (F64.lt x y) eqn:E; auto.
      rewrite <- (M2 y Hy). symmetry. eapply F64Facts.lt_trans; eauto.
  - split; [now left|]. split; [now left|]. split; [|split]; auto.
    + intros y Hy. apply in_snoc in Hy as [Hy | ->]; auto.
    + intros y Hy. apply in_snoc in Hy as [Hy | ->]; auto.
Qed.

Lemma extremes_fold xs x0 :
  extremes (x0 :: xs) (fold_left axis_step xs (x0, x0)).
Proof.
  induction xs as [|x xs IH] using rev_ind.
  - apply extremes_seed.
  - rewrite fold_left_app. cbn [fold_left].
    change (x0 :: xs ++ [x]) with ((x0 :: xs) ++ [x]).
    now apply extremes_step.
Qed.

(** A step never raises the minimum and never lowers the maximum. *)
Lemma axis_step_widens lohi x :
  (fst (axis_step lohi x) = fst lohi \/
   F64.lt (fst (axis_step lohi x)) (fst lohi) = true) /\
  (snd (axis_step lohi x) = snd lohi \/
   F64.lt (snd lohi) (snd (axis_step lohi x)) = true).
Proof.
  unfold axis_step, F64.gt.
  destruct (F64.lt x (fst lohi)) eqn:E1; [|destruct (F64.lt (snd lohi) x) eqn:E2];
    cbn [fst snd]; auto.
Qed.

(** * The properties *)

(** A small mesh for the examples: one isolated edge. *)
Definition one_edge : Mesh := alloc [].

(** ** Null edges *)

(** C6. A nil edge is not fatal for [Splice], [Delete] and [Connect]:
    [Splice a b] returns and leaves the mesh as it is when [a] or [b] is
    nil, [Delete nil] returns and leaves the mesh as it is, and
    [Connect a b order] returns nil and leaves the mesh as it is when [a] or
    [b] is nil. *)
Theorem nil_edge_is_no_op :
  forall (Order : Type) (ResolveEdge : Order -> EdgeRef -> Point -> M EdgeRef)
         (m : Mesh) (a b : EdgeRef) (order : Order),
    Splice None b m = Some (tt, m) /\
    Splice a None m = Some (tt, m) /\
    Delete None m = Some (tt, m) /\
    Connect Order ResolveEdge None b order m = Some (None, m) /\
    Connect Order ResolveEdge a None order m = Some (None, m).
Proof.
  intros Order ResolveEdge m a b order.
  split; [reflexivity|].
  split; [destruct a; reflexivity|].
  split; [reflexivity|].
  split; [destruct b; reflexivity | reflexivity].
Qed.

Lemma OPrev_nil (m : Mesh) : OPrev None m = None.
Proof. reflexivity. Qed.



(** ** Splice *)

(** C1. [Splice a b] on two edges of the arena, with [alpha] and [beta] the
    rotations of their successors: the four successors are read from the
    mesh as it is before the call, then [a], [b], [alpha] and [beta] are
    given, in this order, the successors read for [b], [a], [beta] and
    [alpha].  Nothing is allocated, no origin changes, and no other edge
    changes its successor.  As [a], [b] on one side and [alpha], [beta] on
    the other are different edges (in the edge algebra they are of different
    kinds), each of the four has exactly the successor written for it. *)
Theorem Splice_reads_then_writes (m : Mesh) (a b na nb : nat) :
  a < length m -> b < length m ->
  nxt m a = Some na -> nxt m b = Some nb ->
  rot na < length m -> rot nb < length m ->
  let alpha := rot na in
  let beta := rot nb in
  exists m',
    Splice (Some a) (Some b) m = Some (tt, m') /\
    m' = put_next beta (nxt m alpha)
           (put_next alpha (nxt m beta)
              (put_next b (nxt m a)
                 (put_next a (nxt m b) m))) /\
    length m' = length m /\
    (forall x, vtx m' x = vtx m x) /\
    (forall x, x <> a -> x <> b -> x <> alpha -> x <> beta ->
               nxt m' x = nxt m x) /\
    (a <> alpha -> a <> beta -> b <> alpha -> b <> beta ->
     nxt m' a = nxt m b /\ nxt m' b = nxt m a /\
     nxt m' alpha = nxt m beta /\ nxt m' beta = nxt m alpha).
Proof.
  intros Ha Hb Ea Eb Hra Hrb alpha beta.
  exists (spliced a b na nb m).
  split; [now apply Splice_run|].
  split; [unfold spliced; now rewrite Ea, Eb|].
  split; [apply length_spliced|].
  split; [intros x; apply vtx_spliced|].
  split.
  - intros x N1 N2 N3 N4. rewrite nxt_spliced_raw by auto.
    fold alpha beta. repeat case_decide; congruence.
  - intros N1 N2 N3 N4. rewrite !nxt_spliced_raw by auto. fold alpha beta.
    repeat split; repeat case_decide; subst; try congruence.
Qed.

Lemma Splice_reads_then_writes_witness :
  exists m',
    Splice (Some 0) (Some 2) one_edge = Some (tt, m') /\
    nxt m' 0 = nxt one_edge 2 /\ nxt m' 2 = nxt one_edge 0.
Proof.
  destruct (Splice_reads_then_writes one_edge 0 2 0 2)
    as (m' & R & _ & _ & _ & _ & X); try (cbn; lia); try reflexivity.
  exists m'. split; [exact R|].
  destruct X as (X1 & X2 & _); try (cbn; lia). now split.
Defined.

(** ** The origin rings stay closed *)




Definition pt (x y : Z) : Point := (F64.of_Z x, F64.of_Z y).

(** Two isolated edges, from (0,0) to (1,0) and from (1,1) to (0,1). *)
Definition two_edges : Mesh :=
  put_v 6 (Some (pt 0 1)) (put_v 4 (Some (pt 1 1))
    (alloc (put_v 2 (Some (pt 1 0)) (put_v 0 (Some (pt 0 0)) (alloc []))))).

(** A resolver for the examples: the edge it is given. *)
Definition resolve_same (_ : unit) (b : EdgeRef) (_ : Point) : M EdgeRef :=
  ret b.



(** ** Splice joins two rings and splits them again *)

(** C3, as stated, fails when [a] is a primal and [b] a dual edge: on one
    isolated edge [e], the origin rings of [e] and of [e.InvRot()] are
    distinct, of sizes 1 and 2, and [Splice(e, e.InvRot())] leaves [e] in a
    ring of size 4. *)
Lemma Splice_mixed_kinds_counterexample :
  wf one_edge /\
  ring_size one_edge 0 = Some 1 /\ ring_size one_edge 3 = Some 2 /\
  same_ring one_edge 0 3 = false /\
  exists m', Splice (Some 0) (Some 3) one_edge = Some (tt, m') /\
             ring_size m' 0 = Some 4 /\
             ring_size m' 0 <> Some (1 + 2).
Proof.
  split; [apply wfb_wf; reflexivity|].
  split; [reflexivity|]. split; [reflexivity|]. split; [reflexivity|].
  eexists. split; [reflexivity|]. split; [reflexivity | discriminate].
Qed.

(** C3, amended. In a well-formed structure, for two edges [a] and [b] of
    the same kind (both primal or both dual) that start in distinct origin
    rings, [Splice a b] joins the two rings into one ring whose size is the
    sum of the two sizes, and [Splice a b] on the result splits it back into
    two rings of the original sizes. *)
Theorem Splice_joins_then_splits (m : Mesh) (a b p q : nat) :
  wf m -> a < length m -> b < length m -> a mod 2 = b mod 2 ->
  ring_size m a = Some p -> ring_size m b = Some q ->
  same_ring m a b = false ->
  exists m',
    Splice (Some a) (Some b) m = Some (tt, m') /\
    same_ring m' a b = true /\
    ring_size m' a = Some (p + q) /\ ring_size m' b = Some (p + q) /\
    exists m'',
      Splice (Some a) (Some b) m' = Some (tt, m'') /\
      same_ring m'' a b = false /\
      ring_size m'' a = Some p /\ ring_size m'' b = Some q.
Proof.
  intros W Ha Hb Hab Ra Rb D.
  destruct (Splice_wf m a b W Ha Hb Hab) as (R & L & W' & _ & N).
  set (m' := spliced a b (nx m a) (nx m b) m) in *.
  assert (Ha' : a < length m') by lia. assert (Hb' : b < length m') by lia.
  pose proof (proj1 (ring_size_period m W a p Ha) Ra) as Pa.
  pose proof (proj1 (ring_size_period m W b q Hb) Rb) as Pb.
  pose proof (same_ring_false m W a b Ha D) as Dist.
  exists m'. split; [exact R|]. split; [|split; [|split]].
  - apply (same_ring_intro m' W' a b q Ha').
    rewrite (steps_ext (splice_fn (nx m) a b)) by exact N.
    eapply (merge_reach (length m)); eauto; apply (proj2 W).
  - apply (ring_size_period m' W' a (p + q) Ha').
    apply (period_ext (splice_fn (nx m) a b)); [exact N|].
    eapply (merge_period_a (length m)); eauto; apply (proj2 W).
  - apply (ring_size_period m' W' b (p + q) Hb').
    apply (period_ext (splice_fn (nx m) a b)); [exact N|].
    eapply (merge_period_b (length m)); eauto; apply (proj2 W).
  - destruct (Splice_wf m' a b W' Ha' Hb' Hab) as (R2 & _).
    pose proof (Splice_twice m a b W Ha Hb Hab) as T. cbv zeta in T. fold m' in T.
    rewrite T in R2. exists m. auto.
Qed.

Lemma Splice_joins_then_splits_witness :
  exists m',
    Splice (Some 0) (Some 4) two_edges = Some (tt, m') /\
    same_ring m' 0 4 = true /\
    ring_size m' 0 = Some (1 + 1) /\ ring_size m' 4 = Some (1 + 1) /\
    exists m'',
      Splice (Some 0) (Some 4) m' = Some (tt, m'') /\
      same_ring m'' 0 4 = false /\
      ring_size m'' 0 = Some 1 /\ ring_size m'' 4 = Some 1.
Proof.
  apply (Splice_joins_then_splits two_edges 0 4 1 1).
  - apply wfb_wf. reflexivity.
  - cbn. lia.
  - cbn. lia.
  - reflexivity.
  - reflexivity.
  - reflexivity.
  - reflexivity.
Defined.

(** ** The predicates *)

(** An edge from (0,0) to (10,0), for the examples. *)
Definition edge_0_10 : Mesh :=
  put_v 2 (Some (pt 10 0)) (put_v 0 (Some (pt 0 0)) (alloc [])).

(** A segment test for the examples: the point is the first end. *)
Definition on_first_end (p : Point) (l : Point * Point) : bool :=
  F64.eq (fst p) (fst (fst l)) && F64.eq (snd p) (snd (fst l)).

(** C8. For an edge of the mesh, when its origin or its destination is
    unset, [OnEdge] and [RightOf] return false, they do not panic; when both
    are set, [OnEdge] returns what the delegated segment test says of the
    point and of the segment from the origin to the destination. *)
Theorem predicates_unset_endpoints
    (IsPointOnLineSegment : Point -> Point * Point -> bool)
    (Tolerance : float64) (nan_signbit : bool)
    (m : Mesh) (e : nat) (p : Point) (yflip : bool) :
  length m mod 4 = 0 -> e < length m ->
  (Orig (Some e) m = Some (None, m) \/ Dest (Some e) m = Some (None, m) ->
   OnEdge IsPointOnLineSegment p (Some e) m = Some (false, m) /\
   RightOf Tolerance nan_signbit yflip p (Some e) m = Some (false, m)) /\
  (forall o d,
     Orig (Some e) m = Some (Some o, m) -> Dest (Some e) m = Some (Some d, m) ->
     OnEdge IsPointOnLineSegment p (Some e) m
       = Some (IsPointOnLineSegment p (o, d), m)).
Proof.
  intros G He.
  rewrite (Orig_run m e He), (Dest_run m e G He).
  rewrite (OnEdge_run IsPointOnLineSegment m e p G He).
  rewrite (RightOf_run Tolerance nan_signbit m e yflip p G He).
  split.
  - intros [E|E]; injection E as E; rewrite E.
    + split; reflexivity.
    + destruct (vtx m e); split; reflexivity.
  - intros o d Eo Ed. injection Eo as ->. injection Ed as ->. reflexivity.
Qed.

Lemma predicates_unset_endpoints_witness :
  (Orig (Some 1) edge_0_10 = Some (None, edge_0_10) \/
   Dest (Some 1) edge_0_10 = Some (None, edge_0_10) ->
   OnEdge on_first_end (pt 0 0) (Some 1) edge_0_10 = Some (false, edge_0_10) /\
   RightOf zero false false (pt 0 0) (Some 1) edge_0_10
     = Some (false, edge_0_10)) /\
  (forall o d,
     Orig (Some 1) edge_0_10 = Some (Some o, edge_0_10) ->
     Dest (Some 1) edge_0_10 = Some (Some d, edge_0_10) ->
     OnEdge on_first_end (pt 0 0) (Some 1) edge_0_10
       = Some (on_first_end (pt 0 0) (o, d), edge_0_10)).
Proof.
  apply (predicates_unset_endpoints on_first_end zero false edge_0_10 1
           (pt 0 0) false).
  - reflexivity.
  - cbn. lia.
Defined.

(** C7. For an edge with both endpoints set, with [c] the cross product
    of (point - origin) and (destination - origin) as the code computes it:
    when [c] is within the tolerance of zero, [RightOf] is false for both
    values of [yflip]; when [c] is farther from zero than the tolerance,
    [RightOf] without [yflip] says whether [c] is positive and with [yflip]
    whether [c] is negative.  For the edge from (0,0) to (10,0), without
    [yflip], and a tolerance below 50: the point (5,5) is not right of the
    edge, the point (5,-5) is. *)
Theorem RightOf_sign_of_cross_product
    (Tolerance : float64) (nan_signbit : bool)
    (m : Mesh) (e : nat) (o d x : Point) :
  length m mod 4 = 0 -> e < length m ->
  Orig (Some e) m = Some (Some o, m) -> Dest (Some e) m = Some (Some d, m) ->
  let c := CrossProduct (Subtract x o) (Subtract d o) in
  (cmp_Float Tolerance c zero = true ->
   forall yflip,
     RightOf Tolerance nan_signbit yflip x (Some e) m = Some (false, m)) /\
  (F64.le zero Tolerance = true -> F64.lt Tolerance (F64.abs c) = true ->
   RightOf Tolerance nan_signbit false x (Some e) m = Some (F64.lt zero c, m) /\
   RightOf Tolerance nan_signbit true x (Some e) m = Some (F64.lt c zero, m)) /\
  (o = pt 0 0 -> d = pt 10 0 ->
   F64.le zero Tolerance = true -> F64.lt Tolerance (F64.of_Z 50) = true ->
   RightOf Tolerance nan_signbit false (pt 5 5) (Some e) m = Some (false, m) /\
   RightOf Tolerance nan_signbit false (pt 5 (-5)) (Some e) m = Some (true, m)).
Proof.
  intros G He Eo Ed c.
  rewrite (Orig_run m e He) in Eo. rewrite (Dest_run m e G He) in Ed.
  injection Eo as Eo. injection Ed as Ed.
  assert (R : forall yflip y,
            RightOf Tolerance nan_signbit yflip y (Some e) m =
              Some (F64.eq (sign Tolerance nan_signbit
                              (CrossProduct (Subtract y o) (Subtract d o)))
                           (if yflip then minus_one else one), m)).
  { intros yflip y. rewrite (RightOf_run Tolerance nan_signbit m e yflip y G He).
    now rewrite Eo, Ed. }
  split; [|split].
  - intros Hc yflip. rewrite R. fold c. rewrite (sign_within _ _ c Hc).
    destruct yflip; reflexivity.
  - intros H0 H1. rewrite !R. fold c.
    destruct (beyond_sign_cases Tolerance nan_signbit c H0 H1) as [E1 E2].
    now rewrite E1, E2.
  - intros -> -> H0 H1. rewrite !R.
    assert (C1 : CrossProduct (Subtract (pt 5 5) (pt 0 0))
                   (Subtract (pt 10 0) (pt 0 0)) = F64.of_Z (-50))
      by (vm_compute; reflexivity).
    assert (C2 : CrossProduct (Subtract (pt 5 (-5)) (pt 0 0))
                   (Subtract (pt 10 0) (pt 0 0)) = F64.of_Z 50)
      by (vm_compute; reflexivity).
    rewrite C1, C2.
    destruct (beyond_sign_cases Tolerance nan_signbit (F64.of_Z (-50)) H0 H1)
      as [E1 _].
    destruct (beyond_sign_cases Tolerance nan_signbit (F64.of_Z 50) H0 H1)
      as [E2 _].
    rewrite E1, E2. split; reflexivity.
Qed.

(** The tolerance of the examples: 2^-20. *)
Definition tolerance_example : float64 :=
  S754_finite false 4503599627370496 (-72).

Lemma RightOf_sign_of_cross_product_witness :
  RightOf tolerance_example false false (pt 5 5) (Some 0) edge_0_10
    = Some (false, edge_0_10) /\
  RightOf tolerance_example false false (pt 5 (-5)) (Some 0) edge_0_10
    = Some (true, edge_0_10).
Proof.
  destruct (RightOf_sign_of_cross_product tolerance_example false edge_0_10 0
              (pt 0 0) (pt 10 0) (pt 5 5)) as (_ & _ & X);
    try reflexivity; [cbn; lia|].
  apply X; reflexivity.
Defined.

(** ** The bounding box *)

Definition xs_of (ps : list Point) : list float64 := map fst ps.
Definition ys_of (ps : list Point) : list float64 := map snd ps.

Definition no_nan (xs : list float64) : Prop :=
  forall x, In x xs -> F64.is_nan x = false.

Lemma BBox_extremes_x p ps :
  extremes (xs_of (p :: ps)) (x_axis (BBox (p :: ps))).
Proof. rewrite BBox_fold, x_axis_fold. apply extremes_fold. Qed.

Lemma BBox_extremes_y p ps :
  extremes (ys_of (p :: ps)) (y_axis (BBox (p :: ps))).
Proof. rewrite BBox_fold, y_axis_fold. apply extremes_fold. Qed.

Lemma extremes_bounds xs lohi :
  extremes xs lohi -> no_nan xs ->
  forall x, In x xs -> F64.le (fst lohi) x = true /\ F64.le x (snd lohi) = true.
Proof.
  intros (I1 & I2 & M1 & M2 & _) N x Hx. split.
  - apply F64Facts.not_lt_le; auto.
  - apply F64Facts.not_lt_le; auto.
Qed.

(** C9. [BBox] of a non-empty sequence is one fold from left to right: the
    first point seeds the four entries and each later point goes through
    the two switches.  A further point never raises min x or min y and never
    lowers max x or max y.  The result is made of the least and greatest
    coordinates of the points: each entry is a coordinate of some point, no
    point has an x below min x or above max x, nor a y below min y or above
    max y (and when no coordinate is NaN, min <= coordinate <= max for every
    point).  [BBox] of (1,1), (5,2), (-3,9) is (-3, 1, 5, 9). *)
Theorem BBox_is_min_max_fold (p : Point) (ps : list Point) :
  let b := BBox (p :: ps) in
  b = fold_left widen ps (seed p) /\
  (forall pre q,
     let old := BBox (p :: pre) in
     let new := BBox (p :: pre ++ [q]) in
     (b0 new = b0 old \/ F64.lt (b0 new) (b0 old) = true) /\
     (b1 new = b1 old \/ F64.lt (b1 new) (b1 old) = true) /\
     (b2 new = b2 old \/ F64.lt (b2 old) (b2 new) = true) /\
     (b3 new = b3 old \/ F64.lt (b3 old) (b3 new) = true)) /\
  extremes (xs_of (p :: ps)) (b0 b, b2 b) /\
  extremes (ys_of (p :: ps)) (b1 b, b3 b) /\
  (no_nan (xs_of (p :: ps)) -> no_nan (ys_of (p :: ps)) ->
   forall q, In q (p :: ps) ->
     F64.le (b0 b) (fst q) = true /\ F64.le (fst q) (b2 b) = true /\
     F64.le (b1 b) (snd q) = true /\ F64.le (snd q) (b3 b) = true) /\
  BBox [pt 1 1; pt 5 2; pt (-3) 9]
    = mkBBox (F64.of_Z (-3)) (F64.of_Z 1) (F64.of_Z 5) (F64.of_Z 9).
Proof.
  intros b. split; [apply BBox_fold|]. split; [|split; [|split; [|split]]].
  - intros pre q old new. unfold new. rewrite BBox_snoc. fold old.
    pose proof (x_axis_widen old q) as X. pose proof (y_axis_widen old q) as Y.
    destruct (axis_step_widens (x_axis old) (fst q)) as [X1 X2].
    destruct (axis_step_widens (y_axis old) (snd q)) as [Y1 Y2].
    rewrite <- X in X1, X2. rewrite <- Y in Y1, Y2.
    unfold x_axis, y_axis in *. cbn [fst snd] in *. auto.
  - apply BBox_extremes_x.
  - apply BBox_extremes_y.
  - intros Nx Ny q Hq.
    destruct (extremes_bounds _ _ (BBox_extremes_x p ps) Nx (fst q)) as [A1 A2];
      [apply in_map, Hq|].
    destruct (extremes_bounds _ _ (BBox_extremes_y p ps) Ny (snd q)) as [A3 A4];
      [apply in_map, Hq|].
    unfold x_axis, y_axis in *. cbn [fst snd] in *. auto.
  - vm_compute. reflexivity.
Qed.

Lemma BBox_is_min_max_fold_witness :
  forall q, In q [pt 1 1; pt 5 2; pt (-3) 9] ->
    F64.le (F64.of_Z (-3)) (fst q) = true /\ F64.le (fst q) (F64.of_Z 5) = true /\
    F64.le (F64.of_Z 1) (snd q) = true /\ F64.le (snd q) (F64.of_Z 9) = true.
Proof.
  destruct (BBox_is_min_max_fold (pt 1 1) [pt 5 2; pt (-3) 9])
    as (_ & _ & _ & _ & X & _).
  apply X.
  - intros x [<-|[<-|[<-|[]]]]; reflexivity.
  - intros x [<-|[<-|[<-|[]]]]; reflexivity.
Defined.

(** ** Connect *)

Lemma nx_connect_m0_old (m : Mesh) a bb x :
  x < length m -> nx (connect_m0 a bb m) x = nx m x.
Proof. intros H. now rewrite nx_connect_m0, nx_alloc_old. Qed.

Lemma nx_connect_m0_new (m : Mesh) a bb k :
  k < 4 ->
  nx (connect_m0 a bb m) (length m + k) =
    length m + match k with 0 => 0 | 1 => 3 | 2 => 2 | _ => 1 end.
Proof. intros H. now rewrite nx_connect_m0, nx_alloc_new. Qed.

Lemma nx_connect_m0_e (m : Mesh) a bb :
  nx (connect_m0 a bb m) (length m) = length m.
Proof.
  pose proof (nx_connect_m0_new m a bb 0) as H. cbv iota in H.
  rewrite !Nat.add_0_r in H. apply H. lia.
Qed.

Lemma nx_connect_m0_e1 (m : Mesh) a bb :
  nx (connect_m0 a bb m) (length m + 1) = length m + 3.
Proof. apply (nx_connect_m0_new m a bb 1). lia. Qed.

Lemma nx_connect_m0_e2 (m : Mesh) a bb :
  nx (connect_m0 a bb m) (length m + 2) = length m + 2.
Proof. apply (nx_connect_m0_new m a bb 2). lia. Qed.

(** After [Connect], the new edge follows [a] about the left face of [a]. *)
Lemma lnext_connect_m (m : Mesh) a bb :
  wf m -> a < length m -> bb < length m ->
  a mod 2 = 0 -> bb mod 2 = 0 ->
  nxt m bb <> Some (sym a) ->
  lnext (connect_m a bb m) a = length m.
Proof.
  intros W Ha Hbb Pa Pbb Hadj.
  pose proof (wf_groups m W) as G.
  pose proof (connect_stage0 m a bb) as S0. feed S0. destruct S0 as (W0 & L0).
  pose proof (connect_stage1 m a bb) as S1. feed S1. destruct S1 as (_ & W1 & L1).
  pose proof (connect_sym_e m a bb) as Es. feed Es.
  pose proof (connect_rot_e m a bb) as Er. feed Er.
  pose proof (connect_invrot_e m a bb) as Ei. feed Ei.
  pose proof (connect_e_parity m a bb) as Pe. feed Pe.
  pose proof (connect_l_lt m a W Ha) as Hl.
  pose proof (connect_l_parity m a) as Pl. feed Pl.
  assert (Hia : invrot a < length m) by (apply invrot_lt; auto).
  assert (Pia : invrot a mod 2 = 1) by (pose proof (invrot_parity a); lia).
  assert (F3 : rot (nx m (lnext m a)) = invrot a).
  { unfold lnext. apply (qp_flip _ _ (proj2 W)), Hia. }
  assert (N1 : forall x, nx (connect_m1 a bb m) x =
             nx (connect_m0 a bb m)
                (swap4 (length m) (lnext m a) (length m + 1) (invrot a) x)).
  { intros x. unfold connect_m1. rewrite lnext_connect_m0 by auto.
    rewrite nx_splice_m by (auto; lia).
    rewrite (nx_connect_m0_old m a bb (lnext m a)) by auto.
    rewrite nx_connect_m0_e. now rewrite Er, F3. }
  assert (A1 : nx (connect_m1 a bb m) (invrot a) = length m + 3).
  { rewrite N1. unfold swap4. rewrite decide_True by reflexivity.
    apply nx_connect_m0_e1. }
  assert (A2 : nx (connect_m1 a bb m) (sym (length m)) = length m + 2).
  { rewrite N1, Es. rewrite swap4_other by lia. apply nx_connect_m0_e2. }
  assert (A3 : rot (nx (connect_m1 a bb m) bb) <> invrot a).
  { rewrite N1. unfold swap4.
    rewrite decide_False by lia. rewrite decide_False by lia.
    destruct (decide (bb = lnext m a)) as [E|Nl].
    - rewrite nx_connect_m0_e. rewrite Er. lia.
    - rewrite decide_False by lia.
      rewrite nx_connect_m0_old by auto.
      intros E. apply Hadj. rewrite (wf_nxt m bb W Hbb). f_equal.
      apply rot_inj. rewrite E. symmetry. apply rot_sym. }
  unfold lnext, connect_m.
  pose proof (sym_parity (length m)) as Ps.
  rewrite nx_splice_m; auto; try lia.
  rewrite A2, Es. rewrite swap4_other; try lia.
  - rewrite A1. rewrite <- Ei. apply rot_invrot.
  - replace (length m + 2) with (sym (length m)) by lia.
    rewrite rot_sym. lia.
Qed.

(** C4. [Connect a b order], from a primal edge [a] of a well-formed mesh
    whose destination is set, when the resolver returns a primal edge [bb]
    with the origin of [b] that is not the edge before [a.Sym()] about the
    destination of [a]: the result is an edge that was not in the mesh, its
    origin is the destination of [a], its destination is the origin of [b],
    and it is the edge after [a] about the left face of [a]. *)
Theorem Connect_new_edge
    (Order : Type) (ResolveEdge : Order -> EdgeRef -> Point -> M EdgeRef)
    (m : Mesh) (a b bb : nat) (order : Order) (p : Point) :
  wf m -> a < length m -> b < length m -> bb < length m ->
  a mod 2 = 0 -> bb mod 2 = 0 ->
  Dest (Some a) m = Some (Some p, m) ->
  ResolveEdge order (Some b) p m = Some (Some bb, m) ->
  Orig (Some bb) m = Orig (Some b) m ->
  nxt m bb <> Some (sym a) ->
  exists e m',
    Connect Order ResolveEdge (Some a) (Some b) order m = Some (Some e, m') /\
    length m <= e < length m' /\
    Orig (Some e) m' = Some (Some p, m') /\
    (exists d, Orig (Some b) m = Some (d, m) /\ Dest (Some e) m' = Some (d, m')) /\
    LNext (Some a) m' = Some (Some e, m').
Proof.
  intros W Ha Hb Hbb Pa Pbb Hd HR Ho Hadj.
  pose proof (wf_groups m W) as G.
  rewrite (Dest_run m a G Ha) in Hd. injection Hd as Hd.
  rewrite (Orig_run m bb Hbb), (Orig_run m b Hb) in Ho. injection Ho as Ho.
  destruct (Connect_ok Order ResolveEdge m a b bb order p W Ha Hbb Pa Pbb Hd HR)
    as (R & W' & L').
  pose proof (connect_sym_e m a bb) as Es. feed Es.
  pose proof (vtx_connect_m m a bb) as V. feed V.
  exists (length m), (connect_m a bb m).
  assert (G' : length (connect_m a bb m) mod 4 = 0) by (apply wf_groups, W').
  split; [exact R|]. split; [lia|]. split; [|split].
  - rewrite Orig_run by lia. rewrite V.
    rewrite decide_False by lia. rewrite decide_True by reflexivity.
    now rewrite Hd.
  - exists (vtx m b). split; [apply Orig_run; auto|].
    rewrite Dest_run by (auto; lia). rewrite V.
    rewrite decide_True by reflexivity. now rewrite Ho.
  - rewrite LNext_run by (auto; lia).
    now rewrite lnext_connect_m.
Qed.

Lemma Connect_new_edge_witness :
  exists e m',
    Connect unit resolve_same (Some 0) (Some 4) tt two_edges
      = Some (Some e, m') /\
    length two_edges <= e < length m' /\
    Orig (Some e) m' = Some (Some (pt 1 0), m') /\
    (exists d, Orig (Some 4) two_edges = Some (d, two_edges) /\
               Dest (Some e) m' = Some (d, m')) /\
    LNext (Some 0) m' = Some (Some e, m').
Proof.
  apply (Connect_new_edge unit resolve_same two_edges 0 4 4 tt (pt 1 0)).
  - apply wfb_wf. reflexivity.
  - cbn. lia.
  - cbn. lia.
  - cbn. lia.
  - reflexivity.
  - reflexivity.
  - reflexivity.
  - reflexivity.
  - reflexivity.
  - cbn. discriminate.
Defined.

(** ** Swap on the diagonal of a quadrilateral *)

(** The successor after a splice, for an edge of the kind of [a] and [b]
    and for an edge of the other kind. *)
Lemma nx_splice_m_same (m : Mesh) a b x :
  wf m -> a < length m -> b < length m -> a mod 2 = b mod 2 ->
  x mod 2 = a mod 2 ->
  nx (splice_m a b m) x =
    nx m (if decide (x = b) then a else if decide (x = a) then b else x).
Proof.
  intros W Ha Hb Hab Px. rewrite nx_splice_m by auto.
  pose proof (alpha_parity _ _ a b (proj2 W) Ha Hb Hab).
  pose proof (beta_parity _ _ a b (proj2 W) Ha Hb Hab).
  unfold swap4. f_equal.
  rewrite decide_False by (intros ->; lia).
  rewrite decide_False by (intros ->; lia). reflexivity.
Qed.

Lemma nx_splice_m_other (m : Mesh) a b x :
  wf m -> a < length m -> b < length m -> a mod 2 = b mod 2 ->
  x mod 2 <> a mod 2 ->
  nx (splice_m a b m) x =
    nx m (if decide (x = rot (nx m b)) then rot (nx m a)
          else if decide (x = rot (nx m a)) then rot (nx m b) else x).
Proof.
  intros W Ha Hb Hab Px. rewrite nx_splice_m by auto.
  unfold swap4. f_equal.
  destruct (decide (x = rot (nx m b))); auto.
  destruct (decide (x = rot (nx m a))); auto.
  rewrite decide_False by (intros ->; lia).
  rewrite decide_False by (intros ->; lia). reflexivity.
Qed.

Lemma lnext_oprev_sym (m : Mesh) x : lnext m x = oprev m (sym x).
Proof. unfold lnext, oprev. now rewrite rot_sym. Qed.

Lemma nx_oprev (m : Mesh) x : wf m -> x < length m -> nx m (oprev m x) = x.
Proof. intros W Hx. apply (qp_next_prev _ _ (proj2 W)), Hx. Qed.

Lemma oprev_unique (m : Mesh) x y :
  wf m -> x < length m -> y < length m -> nx m y = x -> oprev m x = y.
Proof.
  intros W Hx Hy E. apply (qp_inj _ _ (proj2 W)); auto using oprev_lt.
  now rewrite nx_oprev.
Qed.

Lemma nx_lnext (m : Mesh) x : wf m -> x < length m -> nx m (lnext m x) = sym x.
Proof.
  intros W Hx. rewrite lnext_oprev_sym. apply nx_oprev; auto.
  apply sym_lt; auto using wf_groups.
Qed.

Lemma nx_rot_nx (m : Mesh) x :
  wf m -> x < length m -> nx m (rot (nx m x)) = invrot x.
Proof. intros W Hx. apply (qp_dual _ _ (proj2 W)), Hx. Qed.

Fixpoint distinctb (l : list nat) : bool :=
  match l with
  | [] => true
  | x :: r => negb (existsb (Nat.eqb x) r) && distinctb r
  end.

(** [e] is the diagonal of a quadrilateral with a triangle on each side:
    the left faces of [e] and of [e.Sym()] have three edges, and the
    diagonal and the four sides are five different quad-edges.  The sides
    are a = e.OPrev(), a.LNext(), b = e.Sym().OPrev() and b.LNext(). *)
Definition quad_diagonal (m : Mesh) (e : nat) : Prop :=
  lnext m (lnext m (lnext m e)) = e /\
  lnext m (lnext m (lnext m (sym e))) = sym e /\
  distinctb [ e / 4; oprev m e / 4; oprev m (sym e) / 4;
              lnext m (oprev m e) / 4; lnext m (oprev m (sym e)) / 4 ] = true.

(** * Further properties of the editors *)

(** ** Splice: same edge twice, order of the arguments, twice in a row *)

Lemma put_next_same i (m : Mesh) : put_next i (nxt m i) m = m.
Proof.
  unfold put_next, nxt. destruct (m !! i) as [[n0 v0]|] eqn:E; [|reflexivity].
  cbn. now apply list_insert_id.
Qed.

(** X1. [Splice a a] changes nothing: the four writes put back what was
    read. *)
Theorem Splice_same_edge (m : Mesh) (a na : nat) :
  a < length m -> nxt m a = Some na -> rot na < length m ->
  Splice (Some a) (Some a) m = Some (tt, m).
Proof.
  intros Ha Ea Hr. rewrite (Splice_run m a a na na) by auto.
  unfold spliced. rewrite <- Ea. now rewrite !put_next_same.
Qed.

Lemma Splice_same_edge_witness :
  Splice (Some 4) (Some 4) two_edges = Some (tt, two_edges).
Proof.
  apply (Splice_same_edge two_edges 4 4); [cbn; lia | reflexivity | cbn; lia].
Defined.

Lemma swap4_comm a b c d x :
  a <> c -> a <> d -> b <> c -> b <> d -> (a = b <-> c = d) ->
  swap4 b a d c x = swap4 a b c d x.
Proof.
  intros ? ? ? ? [? ?]. unfold swap4.
  repeat (case_decide; subst; try congruence); tauto.
Qed.

(** X2. On a well-formed mesh, for two edges of the same kind, the order
    of the arguments of [Splice] does not matter. *)
Theorem Splice_symmetric (m : Mesh) (a b : nat) :
  wf m -> a < length m -> b < length m -> a mod 2 = b mod 2 ->
  exists m',
    Splice (Some a) (Some b) m = Some (tt, m') /\
    Splice (Some b) (Some a) m = Some (tt, m').
Proof.
  intros W Ha Hb Hab.
  destruct (Splice_wf m a b W Ha Hb Hab) as (R1 & L1 & W1 & V1 & N1).
  destruct (Splice_wf m b a W Hb Ha (eq_sym Hab)) as (R2 & L2 & W2 & V2 & N2).
  cbv zeta in *.
  exists (spliced a b (nx m a) (nx m b) m). split; [exact R1|].
  rewrite R2. f_equal. f_equal. apply mesh_ext; [lia | | intros x; now rewrite V1, V2].
  intros x. destruct (decide (x < length m)) as [Hx|Hx].
  - rewrite (wf_nxt _ x W2), (wf_nxt _ x W1) by lia. f_equal.
    rewrite N1, N2. unfold splice_fn. f_equal.
    pose proof (alpha_parity _ _ a b (proj2 W) Ha Hb Hab).
    pose proof (beta_parity _ _ a b (proj2 W) Ha Hb Hab).
    apply swap4_comm; try (intros E; rewrite <- E in *; lia).
    apply (alpha_beta_eq _ _ a b (proj2 W) Ha Hb Hab).
  - rewrite !nxt_out by lia. reflexivity.
Qed.

Lemma Splice_symmetric_witness :
  exists m',
    Splice (Some 0) (Some 4) two_edges = Some (tt, m') /\
    Splice (Some 4) (Some 0) two_edges = Some (tt, m').
Proof.
  apply (Splice_symmetric two_edges 0 4);
    [apply wfb_wf; reflexivity | cbn; lia | cbn; lia | reflexivity].
Defined.

(** X3. On a well-formed mesh, for two edges of the same kind, a second
    [Splice a b] undoes the first: the mesh is again the one before the two
    calls, successors and origins alike. *)
Theorem Splice_twice_restores (m : Mesh) (a b : nat) :
  wf m -> a < length m -> b < length m -> a mod 2 = b mod 2 ->
  exists m',
    Splice (Some a) (Some b) m = Some (tt, m') /\
    Splice (Some a) (Some b) m' = Some (tt, m).
Proof.
  intros W Ha Hb Hab.
  destruct (Splice_wf m a b W Ha Hb Hab) as (R & L & W' & _).
  cbv zeta in *.
  exists (spliced a b (nx m a) (nx m b) m). split; [exact R|].
  destruct (Splice_wf _ a b W') as (R2 & _); try lia.
  rewrite R2. now rewrite (Splice_twice m a b W Ha Hb Hab).
Qed.

Lemma Splice_twice_restores_witness :
  exists m',
    Splice (Some 0) (Some 4) two_edges = Some (tt, m') /\
    Splice (Some 0) (Some 4) m' = Some (tt, two_edges).
Proof.
  apply (Splice_twice_restores two_edges 0 4);
    [apply wfb_wf; reflexivity | cbn; lia | cbn; lia | reflexivity].
Defined.

(** ** Splice breaks one ring into two *)

Lemma period_apart n f i s j k :
  qperm n f -> i < n -> period f i s -> j < k < s ->
  steps f j i <> steps f k i.
Proof.
  intros Hq Hi (_ & _ & Hmin) Hjk E.
  apply (Hmin (k - j)); [lia|].
  apply (steps_inj n f Hq j); auto.
  - apply steps_lt; auto.
  - rewrite <- steps_add. replace (k - j + j) with k by lia. congruence.
Qed.

Section Split.
Variables (n : nat) (f : nat -> nat) (a b s k : nat).
Hypothesis Hq : qperm n f.
Hypothesis Ha : a < n.
Hypothesis Hb : b < n.
Hypothesis Hab : a mod 2 = b mod 2.
Hypothesis Pa : period f a s.
Hypothesis Hk : 0 < k < s.
Hypothesis Ek : steps f k a = b.

Let g := splice_fn f a b.

Lemma split_ne : a <> b.
Proof.
  intros E. destruct Pa as (_ & _ & Hmin). apply (Hmin k); [lia|]. congruence.
Qed.

Lemma split_at_a : g a = f b.
Proof.
  pose proof (alpha_parity n f a b Hq Ha Hb Hab).
  pose proof (beta_parity n f a b Hq Ha Hb Hab).
  unfold g, splice_fn, swap4. repeat case_decide; congruence.
Qed.

Lemma split_at_b : g b = f a.
Proof.
  pose proof (alpha_parity n f a b Hq Ha Hb Hab).
  pose proof (beta_parity n f a b Hq Ha Hb Hab).
  unfold g, splice_fn, swap4. repeat case_decide; congruence.
Qed.

Lemma split_elsewhere j : 0 < j < s -> j <> k -> g (steps f j a) = f (steps f j a).
Proof.
  intros Hj Njk.
  pose proof (alpha_parity n f a b Hq Ha Hb Hab).
  pose proof (beta_parity n f a b Hq Ha Hb Hab).
  pose proof (steps_parity n f Hq j a Ha) as Pj.
  assert (N1 : steps f j a <> a) by (apply Pa; lia).
  assert (N2 : steps f j a <> b).
  { rewrite <- Ek. destruct (decide (j < k)).
    - apply (period_apart n f a s j k); auto; lia.
    - intros E. symmetry in E. revert E.
      apply (period_apart n f a s k j); auto; lia. }
  unfold g, splice_fn, swap4. repeat case_decide; congruence.
Qed.

(** From [b] the new chain follows the old chain of [a], up to [b]. *)
Lemma split_run_b j : 0 < j <= k -> steps g j b = steps f j a.
Proof.
  induction j as [|j IH]; intros Hj; [lia|].
  destruct j as [|j]; [cbn; apply split_at_b|].
  rewrite (steps_S_r g (S j)), IH by lia. rewrite (steps_S_r f (S j)).
  apply split_elsewhere; lia.
Qed.

(** From [a] the new chain follows the old chain after [b]. *)
Lemma split_run_a j : 0 < j <= s - k -> steps g j a = steps f (k + j) a.
Proof.
  induction j as [|j IH]; intros Hj; [lia|].
  destruct j as [|j].
  - cbn [steps]. rewrite split_at_a, <- Ek, <- steps_S_r.
    f_equal. lia.
  - rewrite (steps_S_r g (S j)), IH by lia.
    replace (k + S (S j)) with (S (k + S j)) by lia. rewrite (steps_S_r f).
    apply split_elsewhere; lia.
Qed.

Lemma split_period_b : period g b k.
Proof.
  split; [lia|]. split.
  - rewrite split_run_b by lia. exact Ek.
  - intros d Hd. rewrite split_run_b by lia. rewrite <- Ek.
    apply (period_apart n f a s d k); auto; lia.
Qed.

Lemma split_period_a : period g a (s - k).
Proof.
  destruct Pa as (Hs & Es & Hmin).
  split; [lia|]. split.
  - rewrite split_run_a by lia. replace (k + (s - k)) with s by lia. exact Es.
  - intros d Hd. rewrite split_run_a by lia. apply Hmin. lia.
Qed.

Lemma split_apart j : steps g j a <> b.
Proof.
  destruct split_period_a as (Hp & Ep & _).
  rewrite (steps_mod_period g a (s - k) j Hp Ep).
  pose proof (Nat.mod_upper_bound j (s - k)) as U.
  destruct (j mod (s - k)) as [|j'] eqn:E.
  - cbn. apply split_ne.
  - rewrite split_run_a by lia. rewrite <- Ek. intros X. symmetry in X. revert X.
    apply (period_apart n f a s k (k + S j')); auto; lia.
Qed.
End Split.

Lemma same_ring_witness (m : Mesh) a b s :
  wf m -> a < length m -> a <> b ->
  same_ring m a b = true -> period (nx m) a s ->
  exists k, 0 < k < s /\ steps (nx m) k a = b.
Proof.
  intros W Ha Nab S P. apply (same_ring_true m) in S as (j & Ej).
  destruct P as (Hs & Es & Hmin).
  exists (j mod s). pose proof (Nat.mod_upper_bound j s).
  rewrite <- (steps_mod_period (nx m) a s j Hs Es). split; [|exact Ej].
  destruct (j mod s) eqn:E; [|lia].
  exfalso. apply Nab. rewrite <- Ej.
  rewrite (steps_mod_period (nx m) a s j Hs Es), E. reflexivity.
Qed.

(** X4. On a well-formed mesh, for two different edges [a] and [b] of one
    origin ring, [Splice a b] breaks the ring in two: afterwards [a] and [b]
    are in distinct rings, and the sizes of the two rings add up to the size
    of the ring they were in. *)
Theorem Splice_splits_ring (m : Mesh) (a b s : nat) :
  wf m -> a < length m -> b < length m -> a <> b ->
  ring_size m a = Some s -> same_ring m a b = true ->
  exists m' p q,
    Splice (Some a) (Some b) m = Some (tt, m') /\
    ring_size m' a = Some p /\ ring_size m' b = Some q /\
    0 < p /\ 0 < q /\ p + q = s /\
    same_ring m' a b = false.
Proof.
  intros W Ha Hb Nab Ra S.
  pose proof (proj1 (ring_size_period m W a s Ha) Ra) as Pa.
  destruct (same_ring_witness m a b s W Ha Nab S Pa) as (k & Hk & Ek).
  assert (Hab : a mod 2 = b mod 2).
  { rewrite <- Ek. symmetry. apply (steps_parity _ _ (proj2 W)), Ha. }
  destruct (Splice_wf m a b W Ha Hb Hab) as (R & L & W' & _ & N).
  set (m' := spliced a b (nx m a) (nx m b) m) in *.
  assert (Ha' : a < length m') by lia. assert (Hb' : b < length m') by lia.
  exists m', (s - k), k.
  split; [exact R|]. split; [|split; [|split; [|split; [|split]]]]; try lia.
  - apply (ring_size_period m' W' a (s - k) Ha').
    apply (period_ext (splice_fn (nx m) a b)); [exact N|].
    eapply (split_period_a (length m)); eauto; apply (proj2 W).
  - apply (ring_size_period m' W' b k Hb').
    apply (period_ext (splice_fn (nx m) a b)); [exact N|].
    eapply (split_period_b (length m)); eauto; apply (proj2 W).
  - destruct (same_ring m' a b) eqn:X; auto. exfalso.
    apply (same_ring_true m') in X as (j & Ej).
    rewrite (steps_ext (splice_fn (nx m) a b)) in Ej by exact N.
    revert Ej. eapply (split_apart (length m)); eauto; apply (proj2 W).
Qed.

(** The two edges of [two_edges], joined at their origins. *)
Definition joined_edges : Mesh := splice_m 0 4 two_edges.

Lemma Splice_splits_ring_witness :
  exists m' p q,
    Splice (Some 0) (Some 4) joined_edges = Some (tt, m') /\
    ring_size m' 0 = Some p /\ ring_size m' 4 = Some q /\
    0 < p /\ 0 < q /\ p + q = 2 /\
    same_ring m' 0 4 = false.
Proof.
  apply (Splice_splits_ring joined_edges 0 4 2).
  - apply wfb_wf. reflexivity.
  - cbn. lia.
  - cbn. lia.
  - discriminate.
  - reflexivity.
  - reflexivity.
Defined.

(** ** The edge algebra and the left-face rings *)

(** The edge after [e] about its left face is a successor function of the
    edge algebra as well: the dual structure. *)
Lemma qperm_lnext (m : Mesh) : wf m -> qperm (length m) (lnext m).
Proof.
  intros W. pose proof (wf_groups m W) as G. constructor; auto.
  - intros i Hi. apply lnext_lt; auto.
  - intros i Hi. apply lnext_parity; auto.
  - intros i Hi. unfold lnext. rewrite invrot_rot.
    rewrite (qp_flip _ _ (proj2 W)) by (apply invrot_lt; auto).
    reflexivity.
Qed.

(** What the editors keep: [e.OPrev().ONext()] and [e.ONext().OPrev()] are
    [e], and every chain of [LNext] comes back to the edge it starts from. *)
Definition edge_algebra (m : Mesh) : Prop :=
  forall x, x < length m ->
    OPrev (Some x) m = Some (Some (oprev m x), m) /\
    ONext (Some (oprev m x)) m = Some (Some x, m) /\
    oprev m (nx m x) = x /\
    LNext (Some x) m = Some (Some (lnext m x), m) /\
    exists k, 0 < k <= length m /\ steps (lnext m) k x = x.

Lemma wf_edge_algebra (m : Mesh) : wf m -> edge_algebra m.
Proof.
  intros W x Hx.
  split; [apply OPrev_run; auto|].
  split.
  - rewrite ONext_run by (apply oprev_lt; auto).
    rewrite wf_nxt by (auto; apply oprev_lt; auto). now rewrite nx_oprev.
  - split; [apply (qp_flip _ _ (proj2 W)), Hx|].
    split; [apply LNext_run; auto|].
    apply qperm_closed; auto. apply qperm_lnext, W.
Qed.

(** X5. On a well-formed mesh, [Splice] (on two edges of the same kind),
    [Swap] and [Delete] return a mesh of the same size in which [OPrev] is
    still the inverse of [ONext] and every left-face ring is closed. *)
Theorem editors_keep_edge_algebra (m : Mesh) (a b e e' : nat) :
  wf m ->
  a < length m -> b < length m -> a mod 2 = b mod 2 ->
  e < length m -> e' < length m ->
  (exists m', Splice (Some a) (Some b) m = Some (tt, m') /\
              length m' = length m /\ edge_algebra m') /\
  (exists m', Swap (Some e) m = Some (tt, m') /\
              length m' = length m /\ edge_algebra m') /\
  (exists m', Delete (Some e') m = Some (tt, m') /\
              length m' = length m /\ edge_algebra m').
Proof.
  intros W Ha Hb Hab He He'. split; [|split].
  - destruct (Splice_ok m a b W Ha Hb Hab) as (R & W' & L).
    eauto using wf_edge_algebra.
  - destruct (Swap_ok m e W He) as (R & W' & L).
    eauto using wf_edge_algebra.
  - destruct (Delete_ok m e' W He') as (R & W' & L).
    eauto using wf_edge_algebra.
Qed.

Lemma editors_keep_edge_algebra_witness :
  (exists m', Splice (Some 0) (Some 4) two_edges = Some (tt, m') /\
              length m' = length two_edges /\ edge_algebra m') /\
  (exists m', Swap (Some 0) two_edges = Some (tt, m') /\
              length m' = length two_edges /\ edge_algebra m') /\
  (exists m', Delete (Some 0) two_edges = Some (tt, m') /\
              length m' = length two_edges /\ edge_algebra m').
Proof.
  apply (editors_keep_edge_algebra two_edges 0 4 0 0);
    [apply wfb_wf; reflexivity | cbn; lia | cbn; lia | reflexivity
    | cbn; lia | cbn; lia].
Defined.

(** ** Delete *)

Lemma nx_splice_oprev_self (m : Mesh) x :
  wf m -> x < length m -> nx (splice_m x (oprev m x) m) x = x.
Proof.
  intros W Hx.
  rewrite nx_splice_m_same; auto using oprev_lt.
  - destruct (decide (x = oprev m x)) as [E|N].
    + pose proof (nx_oprev m x W Hx) as X. now rewrite <- E in X.
    + rewrite decide_True by reflexivity. apply nx_oprev; auto.
  - symmetry. apply oprev_parity; auto.
Qed.

Lemma nx_delete_m (m : Mesh) e :
  wf m -> e < length m ->
  nx (delete_m e m) e = e /\ nx (delete_m e m) (sym e) = sym e.
Proof.
  intros W He. pose proof (wf_groups m W) as G.
  destruct (Splice_ok m e (oprev m e) W He) as (_ & W1 & L1);
    [apply oprev_lt; auto | symmetry; apply oprev_parity; auto|].
  pose proof (nx_splice_oprev_self m e W He) as E1.
  unfold delete_m. set (m1 := splice_m e (oprev m e) m) in *.
  assert (Hs : sym e < length m1) by (rewrite L1; apply sym_lt; auto).
  split; [|apply nx_splice_oprev_self; auto].
  pose proof (oprev_lt m1 (sym e) W1 Hs) as Hq.
  pose proof (oprev_parity m1 (sym e) W1 Hs) as Pq.
  pose proof (sym_parity e) as Ps. pose proof (sym_ne e) as Ns.
  rewrite nx_splice_m_same; auto; try lia.
  rewrite decide_False.
  - rewrite decide_False by auto. exact E1.
  - intros E. pose proof (nx_oprev m1 (sym e) W1 Hs) as X.
    rewrite <- E in X. congruence.
Qed.

(** X6. [Delete e] on a well-formed mesh allocates nothing and changes no
    origin; afterwards [e] and [e.Sym()] are each alone in their origin
    ring, and no other edge has one of them as its successor. *)
Theorem Delete_isolates (m : Mesh) (e : nat) :
  wf m -> e < length m ->
  exists m',
    Delete (Some e) m = Some (tt, m') /\
    length m' = length m /\
    (forall x, vtx m' x = vtx m x) /\
    ONext (Some e) m' = Some (Some e, m') /\
    ONext (Some (sym e)) m' = Some (Some (sym e), m') /\
    ring_size m' e = Some 1 /\ ring_size m' (sym e) = Some 1 /\
    (forall x, x < length m' -> x <> e -> x <> sym e ->
       nxt m' x <> Some e /\ nxt m' x <> Some (sym e)).
Proof.
  intros W He. pose proof (wf_groups m W) as G.
  destruct (Delete_ok m e W He) as (R & W' & L).
  destruct (nx_delete_m m e W He) as (E1 & E2).
  assert (He' : e < length (delete_m e m)) by lia.
  assert (Hs' : sym e < length (delete_m e m)) by (rewrite L; apply sym_lt; auto).
  exists (delete_m e m). split; [exact R|]. split; [exact L|].
  split; [intros x; unfold delete_m; now rewrite !vtx_splice_m|].
  split; [rewrite ONext_run, wf_nxt by auto; now rewrite E1|].
  split; [rewrite ONext_run, wf_nxt by auto; now rewrite E2|].
  split; [|split].
  - apply (ring_size_period _ W' e 1 He'). split; [lia|]. split; [exact E1|].
    intros d Hd. lia.
  - apply (ring_size_period _ W' (sym e) 1 Hs'). split; [lia|]. split; [exact E2|].
    intros d Hd. lia.
  - intros x Hx N1 N2. rewrite (wf_nxt _ x W' Hx). split; intros X; injection X as X.
    + apply N1. apply (qp_inj _ _ (proj2 W')); auto. congruence.
    + apply N2. apply (qp_inj _ _ (proj2 W')); auto. congruence.
Qed.

Lemma Delete_isolates_witness :
  exists m',
    Delete (Some 0) joined_edges = Some (tt, m') /\
    length m' = length joined_edges /\
    (forall x, vtx m' x = vtx joined_edges x) /\
    ONext (Some 0) m' = Some (Some 0, m') /\
    ONext (Some (sym 0)) m' = Some (Some (sym 0), m') /\
    ring_size m' 0 = Some 1 /\ ring_size m' (sym 0) = Some 1 /\
    (forall x, x < length m' -> x <> 0 -> x <> sym 0 ->
       nxt m' x <> Some 0 /\ nxt m' x <> Some (sym 0)).
Proof.
  apply (Delete_isolates joined_edges 0); [apply wfb_wf; reflexivity | cbn; lia].
Defined.

Lemma Delete_isolated (m : Mesh) e :
  wf m -> e < length m -> nx m e = e -> nx m (sym e) = sym e ->
  Delete (Some e) m = Some (tt, m).
Proof.
  intros W He E1 E2. pose proof (wf_groups m W) as G.
  assert (Hs : sym e < length m) by (apply sym_lt; auto).
  assert (O1 : oprev m e = e) by (apply oprev_unique; auto).
  assert (O2 : oprev m (sym e) = sym e) by (apply oprev_unique; auto).
  assert (S1 : Splice (Some e) (Some e) m = Some (tt, m)).
  { apply (Splice_same_edge m e e); auto.
    - rewrite wf_nxt by auto. now rewrite E1.
    - apply rot_lt; auto. }
  assert (S2 : Splice (Some (sym e)) (Some (sym e)) m = Some (tt, m)).
  { apply (Splice_same_edge m (sym e) (sym e)); auto.
    - rewrite wf_nxt by auto. now rewrite E2.
    - apply rot_lt; auto. }
  unfold Delete. cbn [is_nil Sym]. unfold bind at 1, ret at 1.
  rewrite (bind_run _ _ m m tt).
  2:{ rewrite (bind_run _ _ m m (Some (oprev m e))) by (apply OPrev_run; auto).
      now rewrite O1. }
  rewrite (bind_run _ _ m m (Some (oprev m (sym e)))) by (apply OPrev_run; auto).
  now rewrite O2.
Qed.

(** X7. [Delete] is idempotent on a well-formed mesh: a second [Delete e]
    returns and leaves the mesh as the first left it. *)
Theorem Delete_idempotent (m : Mesh) (e : nat) :
  wf m -> e < length m ->
  exists m',
    Delete (Some e) m = Some (tt, m') /\
    Delete (Some e) m' = Some (tt, m').
Proof.
  intros W He.
  destruct (Delete_ok m e W He) as (R & W' & L).
  destruct (nx_delete_m m e W He) as (E1 & E2).
  exists (delete_m e m). split; [exact R|].
  apply Delete_isolated; auto. lia.
Qed.

Lemma Delete_idempotent_witness :
  exists m',
    Delete (Some 0) joined_edges = Some (tt, m') /\
    Delete (Some 0) m' = Some (tt, m').
Proof.
  apply (Delete_idempotent joined_edges 0); [apply wfb_wf; reflexivity | cbn; lia].
Defined.

(** ** Connect *)

(** X8. [Connect a b order] dereferences the destination of [a] before
    anything else is done with it: for edges [a] and [b] that are not nil,
    when the destination of [a] is unset the call panics, whatever the
    resolver is. *)
Theorem Connect_panics_on_unset_destination
    (Order : Type) (ResolveEdge : Order -> EdgeRef -> Point -> M EdgeRef)
    (m : Mesh) (a b : nat) (order : Order) :
  Dest (Some a) m = Some (None, m) ->
  Connect Order ResolveEdge (Some a) (Some b) order m = None.
Proof.
  intros H. unfold Connect. cbn [is_nil orb].
  now rewrite (bind_run _ _ m m None) by exact H.
Qed.

Lemma Connect_panics_on_unset_destination_witness :
  Connect unit resolve_same (Some 0) (Some 0) tt one_edge = None.
Proof.
  apply (Connect_panics_on_unset_destination unit resolve_same one_edge 0 0 tt).
  reflexivity.
Defined.

Lemma nx_connect_m1 (m : Mesh) a bb x :
  wf m -> a < length m -> a mod 2 = 0 ->
  nx (connect_m1 a bb m) x =
    nx (connect_m0 a bb m)
       (swap4 (length m) (lnext m a) (length m + 1) (invrot a) x).
Proof.
  intros W Ha Pa. pose proof (wf_groups m W) as G.
  pose proof (connect_stage0 m a bb) as S0. feed S0. destruct S0 as (W0 & L0).
  pose proof (connect_l_lt m a W Ha) as Hl.
  pose proof (connect_l_parity m a) as Pl. feed Pl.
  assert (Pe : length m mod 2 = 0) by (zify; Z.div_mod_to_equations; lia).
  assert (Er : rot (length m) = length m + 1) by quad.
  assert (Hia : invrot a < length m) by (apply invrot_lt; auto).
  assert (F3 : rot (nx m (lnext m a)) = invrot a).
  { unfold lnext. apply (qp_flip _ _ (proj2 W)), Hia. }
  unfold connect_m1. rewrite lnext_connect_m0 by auto.
  rewrite nx_splice_m by (auto; lia).
  rewrite (nx_connect_m0_old m a bb (lnext m a)) by auto.
  rewrite nx_connect_m0_e. now rewrite Er, F3.
Qed.

(** After [Connect], the resolved edge follows the new edge about its left
    face. *)
Lemma lnext_connect_m_new (m : Mesh) a bb :
  wf m -> a < length m -> bb < length m ->
  a mod 2 = 0 -> bb mod 2 = 0 ->
  lnext (connect_m a bb m) (length m) = bb.
Proof.
  intros W Ha Hbb Pa Pbb. pose proof (wf_groups m W) as G.
  pose proof (connect_stage1 m a bb) as S1. feed S1. destruct S1 as (_ & W1 & L1).
  pose proof (connect_l_lt m a W Ha) as Hl.
  assert (Pe : length m mod 2 = 0) by (zify; Z.div_mod_to_equations; lia).
  assert (Es : sym (length m) = length m + 2) by quad.
  assert (Ei : invrot (length m) = length m + 3) by quad.
  assert (Pia : invrot a mod 2 = 1) by (pose proof (invrot_parity a); lia).
  assert (Hia : invrot a < length m) by (apply invrot_lt; auto).
  assert (A2 : nx (connect_m1 a bb m) (sym (length m)) = length m + 2).
  { rewrite nx_connect_m1 by auto. rewrite Es.
    rewrite swap4_other by lia. apply nx_connect_m0_e2. }
  assert (A3 : nx (connect_m1 a bb m) bb <> length m + 2).
  { rewrite nx_connect_m1 by auto. unfold swap4.
    rewrite decide_False by lia. rewrite decide_False by lia.
    destruct (decide (bb = lnext m a)) as [E|Nl].
    - rewrite nx_connect_m0_e. lia.
    - rewrite decide_False by lia. rewrite nx_connect_m0_old by auto.
      pose proof (wf_range m bb W Hbb). lia. }
  pose proof (sym_parity (length m)) as Ps.
  pose proof (invrot_parity (length m)) as Pi.
  unfold lnext, connect_m.
  rewrite nx_splice_m_other by (auto; lia).
  rewrite A2. rewrite Ei.
  replace (rot (length m + 2)) with (length m + 3)
    by (rewrite <- Es, rot_sym; lia).
  rewrite decide_False.
  - rewrite decide_True by reflexivity.
    rewrite nx_rot_nx by (auto; lia). apply rot_invrot.
  - intros E. apply A3. apply rot_inj. rewrite <- E.
    rewrite <- Es, rot_sym. lia.
Qed.

(** X9. [Connect a b order], from a primal edge [a] of a well-formed mesh
    whose destination is set, when the resolver returns a primal edge [bb]:
    exactly one quad-edge is allocated, no edge that was in the mesh changes
    its origin, and the resolved edge is the edge after the new edge about
    its left face. *)
Theorem Connect_frame_and_left_face
    (Order : Type) (ResolveEdge : Order -> EdgeRef -> Point -> M EdgeRef)
    (m : Mesh) (a b bb : nat) (order : Order) (p : Point) :
  wf m -> a < length m -> bb < length m ->
  a mod 2 = 0 -> bb mod 2 = 0 ->
  Dest (Some a) m = Some (Some p, m) ->
  ResolveEdge order (Some b) p m = Some (Some bb, m) ->
  exists e m',
    Connect Order ResolveEdge (Some a) (Some b) order m = Some (Some e, m') /\
    e = length m /\ length m' = length m + 4 /\
    (forall x, x < length m -> vtx m' x = vtx m x) /\
    LNext (Some e) m' = Some (Some bb, m').
Proof.
  intros W Ha Hbb Pa Pbb Hd HR. pose proof (wf_groups m W) as G.
  rewrite (Dest_run m a G Ha) in Hd. injection Hd as Hd.
  destruct (Connect_ok Order ResolveEdge m a b bb order p W Ha Hbb Pa Pbb Hd HR)
    as (R & W' & L').
  pose proof (vtx_connect_m m a bb) as V. feed V.
  assert (Es : sym (length m) = length m + 2) by quad.
  exists (length m), (connect_m a bb m).
  split; [exact R|]. split; [reflexivity|]. split; [exact L'|]. split.
  - intros x Hx. rewrite V.
    rewrite decide_False by lia. rewrite decide_False by lia.
    apply vtx_alloc_old, Hx.
  - rewrite LNext_run by (auto; lia). now rewrite lnext_connect_m_new.
Qed.

Lemma Connect_frame_and_left_face_witness :
  exists e m',
    Connect unit resolve_same (Some 0) (Some 4) tt two_edges
      = Some (Some e, m') /\
    e = length two_edges /\ length m' = length two_edges + 4 /\
    (forall x, x < length two_edges -> vtx m' x = vtx two_edges x) /\
    LNext (Some e) m' = Some (Some 4, m').
Proof.
  apply (Connect_frame_and_left_face unit resolve_same two_edges 0 4 4 tt
           (pt 1 0));
    [apply wfb_wf; reflexivity | cbn; lia | cbn; lia | reflexivity
    | reflexivity | reflexivity | reflexivity].
Defined.

(** ** RightOf under the two conventions *)

(** X10. For an edge of the mesh [RightOf] returns, with or without
    [yflip], and no point is right of an edge under both conventions. *)
Theorem RightOf_never_both
    (Tolerance : float64) (nan_signbit : bool)
    (m : Mesh) (e : nat) (x : Point) :
  length m mod 4 = 0 -> e < length m ->
  exists r1 r2,
    RightOf Tolerance nan_signbit false x (Some e) m = Some (r1, m) /\
    RightOf Tolerance nan_signbit true x (Some e) m = Some (r2, m) /\
    r1 && r2 = false.
Proof.
  intros G He. rewrite !(RightOf_run Tolerance nan_signbit m e _ x G He).
  do 2 eexists. split; [reflexivity|]. split; [reflexivity|].
  destruct (vtx m e) as [o|]; [|reflexivity].
  destruct (vtx m (sym e)) as [d|]; [|reflexivity].
  unfold sign.
  destruct (cmp_Float Tolerance _ zero); [reflexivity|].
  destruct (Signbit nan_signbit _); reflexivity.
Qed.

Lemma RightOf_never_both_witness :
  exists r1 r2,
    RightOf tolerance_example false false (pt 5 5) (Some 0) edge_0_10
      = Some (r1, edge_0_10) /\
    RightOf tolerance_example false true (pt 5 5) (Some 0) edge_0_10
      = Some (r2, edge_0_10) /\
    r1 && r2 = false.
Proof.
  apply (RightOf_never_both tolerance_example false edge_0_10 0 (pt 5 5));
    [reflexivity | cbn; lia].
Defined.

(** ** BBox: points already seen, NaN, order of the points *)

Definition inside (b : BoundingBox) (q : Point) : Prop :=
  F64.lt (fst q) (b0 b) = false /\ F64.lt (b2 b) (fst q) = false /\
  F64.lt (snd q) (b1 b) = false /\ F64.lt (b3 b) (snd q) = false.

Lemma widen_inside b q : inside b q -> widen b q = b.
Proof.
  intros (H1 & H2 & H3 & H4). unfold widen, widen_x, F64.gt.
  rewrite H1, H2. unfold widen_y, F64.gt. now rewrite H3, H4.
Qed.

Lemma BBox_inside p ps q : In q (p :: ps) -> inside (BBox (p :: ps)) q.
Proof.
  intros Hq.
  destruct (BBox_extremes_x p ps) as (_ & _ & X1 & X2 & _).
  destruct (BBox_extremes_y p ps) as (_ & _ & Y1 & Y2 & _).
  unfold x_axis, y_axis in *. cbn [fst snd] in *.
  repeat split.
  - apply X1. apply in_map, Hq.
  - apply X2. apply in_map, Hq.
  - apply Y1. apply in_map, Hq.
  - apply Y2. apply in_map, Hq.
Qed.

(** X11. Points that are already among the points do not change the box:
    [BBox] of a non-empty sequence followed by points of that sequence is
    [BBox] of the sequence. *)
Theorem BBox_absorbs_known_points (p : Point) (ps qs : list Point) :
  (forall q, In q qs -> In q (p :: ps)) ->
  BBox (p :: ps ++ qs) = BBox (p :: ps).
Proof.
  intros H. rewrite (BBox_fold p (ps ++ qs)), fold_left_app, <- BBox_fold.
  induction qs as [|q qs IH]; [reflexivity|]. cbn [fold_left].
  rewrite widen_inside.
  - apply IH. intros r Hr. apply H. now right.
  - apply BBox_inside, H. now left.
Qed.

Lemma BBox_absorbs_known_points_witness :
  BBox (pt 1 1 :: [pt 5 2; pt (-3) 9] ++ [pt 5 2; pt 1 1])
    = BBox (pt 1 1 :: [pt 5 2; pt (-3) 9]).
Proof.
  apply (BBox_absorbs_known_points (pt 1 1) [pt 5 2; pt (-3) 9]
           [pt 5 2; pt 1 1]).
  intros q [<-|[<-|[]]]; cbn; auto.
Defined.

Lemma lt_nan_l x y : F64.is_nan x = true -> F64.lt x y = false.
Proof. destruct x; try discriminate. reflexivity. Qed.

Lemma lt_nan_r x y : F64.is_nan y = true -> F64.lt x y = false.
Proof. destruct y; try discriminate. destruct x; reflexivity. Qed.

Lemma axis_step_nan lohi x : F64.is_nan x = true -> axis_step lohi x = lohi.
Proof.
  intros H. unfold axis_step, F64.gt.
  now rewrite (lt_nan_l x _ H), (lt_nan_r _ x H).
Qed.

Lemma axis_fold_nan_seed xs x0 :
  F64.is_nan x0 = true -> fold_left axis_step xs (x0, x0) = (x0, x0).
Proof.
  intros H. induction xs as [|x xs IH]; [reflexivity|]. cbn [fold_left].
  unfold axis_step at 2, F64.gt. cbn [fst snd].
  now rewrite (lt_nan_r x x0 H), (lt_nan_l x0 x H).
Qed.

Lemma axis_fold_skip_nan pre x post lohi :
  F64.is_nan x = true ->
  fold_left axis_step (pre ++ x :: post) lohi
    = fold_left axis_step (pre ++ post) lohi.
Proof.
  intros H. rewrite !fold_left_app. cbn [fold_left]. now rewrite axis_step_nan.
Qed.

(** X12. NaN coordinates: when the x of the first point is NaN, min x and
    max x are that NaN whatever points follow; a later point whose x is NaN
    counts for nothing in min x and max x.  The same holds for y. *)
Theorem BBox_nan_coordinates (p q : Point) (ps pre post : list Point) :
  (F64.is_nan (fst p) = true ->
   b0 (BBox (p :: ps)) = fst p /\ b2 (BBox (p :: ps)) = fst p) /\
  (F64.is_nan (snd p) = true ->
   b1 (BBox (p :: ps)) = snd p /\ b3 (BBox (p :: ps)) = snd p) /\
  (F64.is_nan (fst q) = true ->
   b0 (BBox (p :: pre ++ q :: post)) = b0 (BBox (p :: pre ++ post)) /\
   b2 (BBox (p :: pre ++ q :: post)) = b2 (BBox (p :: pre ++ post))) /\
  (F64.is_nan (snd q) = true ->
   b1 (BBox (p :: pre ++ q :: post)) = b1 (BBox (p :: pre ++ post)) /\
   b3 (BBox (p :: pre ++ q :: post)) = b3 (BBox (p :: pre ++ post))).
Proof.
  split; [|split; [|split]].
  - intros H. pose proof (x_axis_fold ps (seed p)) as X.
    rewrite <- BBox_fold in X. unfold x_axis at 2 in X. cbn [seed b0 b2] in X.
    rewrite axis_fold_nan_seed in X by auto.
    unfold x_axis in X. injection X as X1 X2. auto.
  - intros H. pose proof (y_axis_fold ps (seed p)) as X.
    rewrite <- BBox_fold in X. unfold y_axis at 2 in X. cbn [seed b1 b3] in X.
    rewrite axis_fold_nan_seed in X by auto.
    unfold y_axis in X. injection X as X1 X2. auto.
  - intros H.
    pose proof (x_axis_fold (pre ++ q :: post) (seed p)) as X.
    pose proof (x_axis_fold (pre ++ post) (seed p)) as Y.
    rewrite <- BBox_fold in X, Y. rewrite map_app in X, Y. cbn [map] in X.
    rewrite axis_fold_skip_nan in X by auto. rewrite <- Y in X.
    unfold x_axis in X. injection X as X1 X2. auto.
  - intros H.
    pose proof (y_axis_fold (pre ++ q :: post) (seed p)) as X.
    pose proof (y_axis_fold (pre ++ post) (seed p)) as Y.
    rewrite <- BBox_fold in X, Y. rewrite map_app in X, Y. cbn [map] in X.
    rewrite axis_fold_skip_nan in X by auto. rewrite <- Y in X.
    unfold y_axis in X. injection X as X1 X2. auto.
Qed.

Lemma BBox_nan_coordinates_witness :
  b0 (BBox ((S754_nan, zero) :: [pt 1 1])) = S754_nan /\
  b2 (BBox ((S754_nan, zero) :: [pt 1 1])) = S754_nan.
Proof.
  destruct (BBox_nan_coordinates (S754_nan, zero) (pt 0 0) [pt 1 1] [] [])
    as (X & _).
  apply X. reflexivity.
Defined.

Lemma le_antisym_eq x y :
  F64.le x y = true -> F64.le y x = true -> F64.eq x y = true.
Proof.
  unfold F64.le, F64.eq, SFleb, SFeqb, SFcompare.
  destruct x as [sx|sx| |sx mx ex], y as [sy|sy| |sy my ey]; cbn;
    try destruct sx; try destruct sy; cbn; try congruence.
  - change (Pos.compare_cont Eq mx my) with (Pos.compare mx my).
    change (Pos.compare_cont Eq my mx) with (Pos.compare my mx).
    rewrite (Z.compare_antisym ex ey), (Pos.compare_antisym mx my).
    destruct (ex ?= ey)%Z, (mx ?= my)%positive; cbn; congruence.
  - change (Pos.compare_cont Eq mx my) with (Pos.compare mx my).
    change (Pos.compare_cont Eq my mx) with (Pos.compare my mx).
    rewrite (Z.compare_antisym ex ey), (Pos.compare_antisym mx my).
    destruct (ex ?= ey)%Z, (mx ?= my)%positive; cbn; congruence.
Qed.

Lemma extremes_unique xs xs' lohi lohi' :
  Permutation xs xs' -> no_nan xs ->
  extremes xs lohi -> extremes xs' lohi' ->
  F64.eq (fst lohi) (fst lohi') = true /\ F64.eq (snd lohi) (snd lohi') = true.
Proof.
  intros P N E E'.
  assert (N' : no_nan xs').
  { intros x Hx. apply N. eapply Permutation_in; [symmetry; exact P | exact Hx]. }
  pose proof (extremes_bounds xs lohi E N) as B.
  pose proof (extremes_bounds xs' lohi' E' N') as B'.
  destruct E as (I1 & I2 & _). destruct E' as (I1' & I2' & _).
  split; apply le_antisym_eq.
  - apply B. eapply Permutation_in; [symmetry; exact P | exact I1'].
  - apply B'. eapply Permutation_in; [exact P | exact I1].
  - apply B'. eapply Permutation_in; [exact P | exact I2].
  - apply B. eapply Permutation_in; [symmetry; exact P | exact I2'].
Qed.

(** X13. Without NaN the box does not depend on the order of the points:
    for two non-empty sequences that are permutations of each other, the
    four entries of the two boxes are equal as float64 ([==], which takes
    the two zeros for equal). *)
Theorem BBox_order_of_points (p q : Point) (ps qs : list Point) :
  Permutation (p :: ps) (q :: qs) ->
  no_nan (xs_of (p :: ps)) -> no_nan (ys_of (p :: ps)) ->
  F64.eq (b0 (BBox (p :: ps))) (b0 (BBox (q :: qs))) = true /\
  F64.eq (b1 (BBox (p :: ps))) (b1 (BBox (q :: qs))) = true /\
  F64.eq (b2 (BBox (p :: ps))) (b2 (BBox (q :: qs))) = true /\
  F64.eq (b3 (BBox (p :: ps))) (b3 (BBox (q :: qs))) = true.
Proof.
  intros P Nx Ny.
  destruct (extremes_unique (xs_of (p :: ps)) (xs_of (q :: qs)) _ _
              (Permutation_map fst P) Nx
              (BBox_extremes_x p ps) (BBox_extremes_x q qs)) as [X1 X2].
  destruct (extremes_unique (ys_of (p :: ps)) (ys_of (q :: qs)) _ _
              (Permutation_map snd P) Ny
              (BBox_extremes_y p ps) (BBox_extremes_y q qs)) as [Y1 Y2].
  unfold x_axis, y_axis in *. cbn [fst snd] in *. auto.
Qed.

Lemma BBox_order_of_points_witness :
  F64.eq (b0 (BBox [pt 1 1; pt 5 2])) (b0 (BBox [pt 5 2; pt 1 1])) = true /\
  F64.eq (b1 (BBox [pt 1 1; pt 5 2])) (b1 (BBox [pt 5 2; pt 1 1])) = true /\
  F64.eq (b2 (BBox [pt 1 1; pt 5 2])) (b2 (BBox [pt 5 2; pt 1 1])) = true /\
  F64.eq (b3 (BBox [pt 1 1; pt 5 2])) (b3 (BBox [pt 5 2; pt 1 1])) = true.
Proof.
  apply (BBox_order_of_points (pt 1 1) (pt 5 2) [pt 5 2] [pt 1 1]).
  - apply perm_swap.
  - intros x [<-|[<-|[]]]; reflexivity.
  - intros x [<-|[<-|[]]]; reflexivity.
Defined.

(** ** Delete takes one edge out of its ring *)

Lemma period_agree f g x s :
  period f x s -> (forall j, g (steps f j x) = f (steps f j x)) ->
  period g x s.
Proof.
  intros (Hs & Es & Hmin) A.
  assert (E : forall j, steps g j x = steps f j x).
  { induction j as [|j IH]; [reflexivity|].
    rewrite (steps_S_r g), (steps_S_r f), IH. apply A. }
  split; [auto|]. split; [now rewrite E|].
  intros d Hd. rewrite E. now apply Hmin.
Qed.

Lemma period_last n f x s :
  qperm n f -> x < n -> period f x s -> steps f (s - 1) x = rot (f (rot x)).
Proof.
  intros Hq Hx (Hs & Es & _).
  apply (qp_inj n f Hq).
  - apply (steps_lt n f Hq), Hx.
  - apply (qp_prev_lt n f Hq), Hx.
  - rewrite <- steps_S_r. replace (S (s - 1)) with s by lia.
    rewrite Es. symmetry. apply (qp_next_prev n f Hq), Hx.
Qed.

(** After the first splice of [Delete e], the ring of [e.OPrev()] is the
    ring [e] was in, without [e]. *)
Lemma delete_first_splice (m : Mesh) e s :
  wf m -> e < length m -> period (nx m) e s -> 1 < s ->
  period (nx (splice_m e (oprev m e) m)) (oprev m e) (s - 1) /\
  forall j, exists j',
    steps (nx (splice_m e (oprev m e) m)) j (oprev m e) = steps (nx m) j' e.
Proof.
  intros W He P Hs.
  pose proof (oprev_lt m e W He) as Hp.
  pose proof (oprev_parity m e W He) as Pp.
  pose proof (period_last _ _ e s (proj2 W) He P) as El. fold (oprev m e) in El.
  destruct (Splice_wf m e (oprev m e) W He Hp (eq_sym Pp)) as (_ & _ & _ & _ & N).
  cbv zeta in N. fold (splice_m e (oprev m e) m) in N.
  assert (K : 0 < s - 1 < s) by lia.
  pose proof (split_period_b _ _ e (oprev m e) s (s - 1)
                (proj2 W) He Hp (eq_sym Pp) P K El) as Pb.
  assert (Pb' : period (nx (splice_m e (oprev m e) m)) (oprev m e) (s - 1))
    by (apply (period_ext (splice_fn (nx m) e (oprev m e))); auto).
  split; [exact Pb'|].
  intros j. destruct Pb' as (Hk & Ek & _).
  rewrite (steps_mod_period _ _ (s - 1) j Hk Ek).
  pose proof (Nat.mod_upper_bound j (s - 1)) as U.
  destruct (j mod (s - 1)) as [|i] eqn:E.
  - exists (s - 1). cbn. now rewrite El.
  - exists (S i). rewrite (steps_ext (splice_fn (nx m) e (oprev m e))) by exact N.
    apply (split_run_b _ _ e (oprev m e) s (s - 1)
             (proj2 W) He Hp (eq_sym Pp) P K El). lia.
Qed.

(** X14. [Delete e], for an edge whose origin ring has [s] > 1 edges and
    does not go through [e.Sym()]: afterwards the ring of the edge that was
    before [e] has [s - 1] edges (and [e] is alone, see X6). *)
Theorem Delete_shrinks_ring (m : Mesh) (e s : nat) :
  wf m -> e < length m ->
  ring_size m e = Some s -> 1 < s ->
  same_ring m e (sym e) = false ->
  exists m' p,
    OPrev (Some e) m = Some (Some p, m) /\
    Delete (Some e) m = Some (tt, m') /\
    ring_size m' p = Some (s - 1) /\
    ring_size m' e = Some 1.
Proof.
  intros W He R Hs D. pose proof (wf_groups m W) as G.
  pose proof (proj1 (ring_size_period m W e s He) R) as P.
  pose proof (same_ring_false m W e (sym e) He D) as Dist.
  pose proof (oprev_lt m e W He) as Hp.
  pose proof (oprev_parity m e W He) as Pp.
  destruct (Delete_ok m e W He) as (RD & W' & L).
  destruct (nx_delete_m m e W He) as (E1 & _).
  destruct (Splice_ok m e (oprev m e) W He Hp (eq_sym Pp)) as (_ & W1 & L1).
  destruct (delete_first_splice m e s W He P Hs) as (P1 & Sub).
  exists (delete_m e m), (oprev m e).
  split; [apply OPrev_run; auto|]. split; [exact RD|]. split.
  - apply (ring_size_period _ W' (oprev m e) (s - 1)); [lia|].
    apply (period_agree (nx (splice_m e (oprev m e) m))); [exact P1|].
    intros j. set (m1 := splice_m e (oprev m e) m) in *.
    set (y := steps (nx m1) j (oprev m e)).
    assert (Hy : y < length m1)
      by (apply (steps_lt (length m1) (nx m1) (proj2 W1)); lia).
    assert (Py : y mod 2 = e mod 2).
    { unfold y. rewrite (steps_parity (length m1) (nx m1) (proj2 W1)) by lia.
      exact Pp. }
    assert (Ny : y <> sym e).
    { unfold y. destruct (Sub j) as (j' & ->). apply Dist. }
    assert (Ny' : nx m1 y <> sym e).
    { unfold y. rewrite <- steps_S_r. destruct (Sub (S j)) as (j' & ->).
      apply Dist. }
    assert (Hs1 : sym e < length m1) by (rewrite L1; apply sym_lt; auto).
    pose proof (oprev_lt m1 (sym e) W1 Hs1) as Hq.
    pose proof (oprev_parity m1 (sym e) W1 Hs1) as Pq.
    pose proof (sym_parity e) as Ps.
    unfold delete_m. fold m1.
    rewrite nx_splice_m_same; auto; try lia.
    rewrite decide_False.
    + now rewrite decide_False.
    + intros E. apply Ny'. rewrite E. apply nx_oprev; auto.
  - apply (ring_size_period _ W' e 1); [lia|]. split; [lia|]. split; [exact E1|].
    intros d Hd. lia.
Qed.

Lemma Delete_shrinks_ring_witness :
  exists m' p,
    OPrev (Some 0) joined_edges = Some (Some p, joined_edges) /\
    Delete (Some 0) joined_edges = Some (tt, m') /\
    ring_size m' p = Some (2 - 1) /\
    ring_size m' 0 = Some 1.
Proof.
  apply (Delete_shrinks_ring joined_edges 0 2);
    [apply wfb_wf; reflexivity | cbn; lia | reflexivity | lia | reflexivity].
Defined.

(** ** Swap leaves the other origins alone *)

(** X15. [Swap e] on a well-formed mesh allocates nothing and changes the
    origin of no edge other than [e] and [e.Sym()]. *)
Theorem Swap_frame (m : Mesh) (e : nat) :
  wf m -> e < length m ->
  exists m',
    Swap (Some e) m = Some (tt, m') /\
    length m' = length m /\
    forall x, x <> e -> x <> sym e -> vtx m' x = vtx m x.
Proof.
  intros W He. pose proof (wf_groups m W) as G.
  destruct (Swap_ok m e W He) as (R & _ & L).
  destruct (swap_stage4 m e W He) as (_ & _ & L4).
  exists (swap_m e m). split; [exact R|]. split; [exact L|].
  intros x N1 N2. unfold swap_m.
  assert (Hs : sym e < length m) by (apply sym_lt; auto).
  rewrite vtx_put_v by (rewrite length_put_v; lia).
  rewrite decide_False by auto.
  rewrite vtx_put_v by lia. rewrite decide_False by auto.
  apply vtx_swap_rings.
Qed.

Lemma Swap_frame_witness :
  exists m',
    Swap (Some 0) two_edges = Some (tt, m') /\
    length m' = length two_edges /\
    forall x, x <> 0 -> x <> sym 0 -> vtx m' x = vtx two_edges x.
Proof.
  apply (Swap_frame two_edges 0); [apply wfb_wf; reflexivity | cbn; lia].
Defined.
